(** * Semantic-version and Conventional-Commit engine

    A shallow embedding of the algorithmic core of
    [services/devtools/scripts/git-release.py] and
    [services/devtools/scripts/git-changelog.py]:
    version parsing and formatting, the bump policies, the release-bump
    suggestion, commit-subject parsing, grouping and Markdown rendering,
    the reading of the output of [git log], the command [next] and the
    merge into an existing changelog file.

    Modelling conventions.
    - A Python [str] is a [string]; each [ascii] stands for one code point
      below 256, with the character classes Python's [re] and [str.lower]
      give to those code points.  Glyphs of the section titles are kept as
      the bytes of the source file; no function inspects them.
    - A Python [int] that holds a version component is an [N]: every such
      value comes out of [int()] applied to a run of decimal digits, or is
      such a value plus one.
    - [re.match] is a backtracking matcher that returns the first
      successful path; it is modelled by the ordered list of all
      successful paths ([Regex.run]), of which [re.match] takes the head.
    - [sys.exit(1)] after the error message of [parse_version] is the
      error value [InvalidVersion], which carries the text the message
      shows.
    - The interpreter's limit on the length of a decimal conversion is
      not modelled: [int] and [str] are total.
    - A function that runs [git] takes the standard output of the
      command as an argument.
    - The text [Path.read_text()] returns is modelled from the
      characters stored in the file ([Changelog.read_text]: text mode
      reads [\r\n] and [\r] as [\n]); [Path.write_text()] stores the
      text it is handed. *)

From Stdlib Require Import Bool List Arith NArith Lia.
From Stdlib Require Import Ascii String DecimalString DecimalN.
From Stdlib Require Import Permutation.
Import ListNotations.

Local Open Scope list_scope.
Local Open Scope string_scope.

(* ===================================================================== *)
(** ** Characters and strings *)
(* ===================================================================== *)

Module Text.

Definition code (c : ascii) : N := N_of_ascii c.

Definition between (lo hi : N) (c : ascii) : bool :=
  ((lo <=? code c) && (code c <=? hi))%N.

(** [\d]: of the code points below 256, the decimal digits are
    [0-9]. *)
Definition is_digit (c : ascii) : bool := between 48 57 c.

(** [[a-zA-Z]] *)
Definition is_letter (c : ascii) : bool :=
  between 65 90 c || between 97 122 c.

(** [\w]: alphanumeric code points and the underscore. *)
Definition is_word (c : ascii) : bool :=
  between 48 57 c || between 65 90 c || (code c =? 95)%N
  || between 97 122 c || (code c =? 170)%N || between 178 179 c
  || (code c =? 181)%N || between 185 186 c || between 188 190 c
  || between 192 214 c || between 216 246 c || between 248 255 c.

(** [\s] *)
Definition is_space (c : ascii) : bool :=
  between 9 13 c || between 28 32 c || (code c =? 133)%N
  || (code c =? 160)%N.

Definition newline : ascii := "010"%char.

(** [.] without DOTALL: anything but a newline. *)
Definition is_dot (c : ascii) : bool := negb (Ascii.eqb c newline).

(** [[^)]] *)
Definition not_rparen (c : ascii) : bool := negb (Ascii.eqb c ")").

(** Anything but a colon. *)
Definition not_colon (c : ascii) : bool := negb (Ascii.eqb c ":").

(** [str.lower] on one code point: below 256 it gives one character for
    one character. *)
Definition lower_char (c : ascii) : ascii :=
  if between 65 90 c || between 192 214 c || between 216 222 c
  then ascii_of_N (code c + 32)
  else c.

Fixpoint lower (s : string) : string :=
  match s with
  | EmptyString => EmptyString
  | String c t => String (lower_char c) (lower t)
  end.

Fixpoint all (p : ascii -> bool) (s : string) : bool :=
  match s with
  | EmptyString => true
  | String c t => p c && all p t
  end.

(** The first character of [s] satisfies [p]. *)
Definition starts (p : ascii -> bool) (s : string) : bool :=
  match s with
  | EmptyString => false
  | String c _ => p c
  end.

(** [u] is a non-empty run of characters of [p]. *)
Definition runof (p : ascii -> bool) (u : string) : Prop :=
  u <> "" /\ all p u = true.

(** Longest prefix of characters in [p], and what follows it. *)
Fixpoint span (p : ascii -> bool) (s : string) : string * string :=
  match s with
  | EmptyString => (EmptyString, EmptyString)
  | String c t =>
      if p c then let (u, v) := span p t in (String c u, v)
      else (EmptyString, s)
  end.

(** [s.startswith(pre)] *)
Fixpoint startswith (s pre : string) {struct pre} : bool :=
  match pre, s with
  | EmptyString, _ => true
  | String a pre', String b s' => Ascii.eqb a b && startswith s' pre'
  | String _ _, EmptyString => false
  end.

(** [needle in s] *)
Fixpoint contains (needle s : string) : bool :=
  startswith s needle
  || match s with
     | EmptyString => false
     | String _ t => contains needle t
     end.

(** [s.split(sep)[0]] for a one-character separator. *)
Fixpoint before_first (sep : ascii) (s : string) : string :=
  match s with
  | EmptyString => EmptyString
  | String c t => if Ascii.eqb c sep then EmptyString
                  else String c (before_first sep t)
  end.

(** [s.lstrip(c)] for a one-character set. *)
Fixpoint lstrip (c : ascii) (s : string) : string :=
  match s with
  | EmptyString => EmptyString
  | String a t => if Ascii.eqb a c then lstrip c t else s
  end.

Fixpoint last_char (s : string) : option ascii :=
  match s with
  | EmptyString => None
  | String c EmptyString => Some c
  | String _ t => last_char t
  end.

(** [str(n)] and [int(s)] for non-negative integers in decimal. *)
Definition str (n : N) : string := NilZero.string_of_uint (N.to_uint n).

Definition int (s : string) : N :=
  match NilEmpty.uint_of_string s with
  | Some d => N.of_uint d
  | None => 0%N
  end.

(** [sep.join(ls)] *)
Definition join (sep : string) (ls : list string) : string :=
  String.concat sep ls.

(** [s[:n]] and [s[n:]] *)
Fixpoint take (n : nat) (s : string) : string :=
  match n, s with
  | S n', String c t => String c (take n' t)
  | _, _ => EmptyString
  end.

Fixpoint drop (n : nat) (s : string) : string :=
  match n, s with
  | S n', String _ t => drop n' t
  | _, _ => s
  end.

(** [s.split(sep)] for a one-character separator: never an empty
    list. *)
Fixpoint split_on (sep : ascii) (s : string) : list string :=
  match s with
  | EmptyString => [EmptyString]
  | String c t =>
      if Ascii.eqb c sep then EmptyString :: split_on sep t
      else match split_on sep t with
           | x :: r => String c x :: r
           | [] => [String c EmptyString]
           end
  end.

(** [s.split(sep, n)]: at most [n] cuts, from the left. *)
Fixpoint split_max (sep : ascii) (n : nat) (s : string) {struct s}
  : list string :=
  match n with
  | 0 => [s]
  | S n' =>
      match s with
      | EmptyString => [EmptyString]
      | String c t =>
          if Ascii.eqb c sep then EmptyString :: split_max sep n' t
          else match split_max sep n t with
               | x :: r => String c x :: r
               | [] => [String c EmptyString]
               end
      end
  end.

(** [s.strip()] *)
Fixpoint lstrip_space (s : string) : string :=
  match s with
  | EmptyString => EmptyString
  | String c t => if is_space c then lstrip_space t else s
  end.

Fixpoint rstrip_space (s : string) : string :=
  match s with
  | EmptyString => EmptyString
  | String c t =>
      match rstrip_space t with
      | EmptyString => if is_space c then EmptyString else String c EmptyString
      | r => String c r
      end
  end.

Definition strip (s : string) : string := rstrip_space (lstrip_space s).

Definition not_space (c : ascii) : bool := negb (is_space c).

(** [s.split()[0]]; [None] when [s.split()] is empty and the index is
    out of range. *)
Definition first_word (s : string) : option string :=
  match fst (span not_space (lstrip_space s)) with
  | EmptyString => None
  | w => Some w
  end.

(** [s.find(needle)]; [None] for the result [-1]. *)
Fixpoint find (needle s : string) : option nat :=
  if startswith s needle then Some 0
  else match s with
       | EmptyString => None
       | String _ t => option_map S (find needle t)
       end.

End Text.

(* ===================================================================== *)
(** ** The fragment of Python's [re] used by the two scripts *)
(* ===================================================================== *)

Module Regex.
Import Text.

Inductive regex : Type :=
| Bos                                  (* ^ *)
| Eos                                  (* $ *)
| Cls (p : ascii -> bool)              (* one character of a class *)
| Seq (r1 r2 : regex)                  (* r1 r2 *)
| Opt (r : regex)                      (* r?   greedy *)
| Star (p : ascii -> bool)             (* p*   greedy *)
| Plus (p : ascii -> bool)             (* p+   greedy *)
| Grp (n : nat) (r : regex).           (* the n-th capturing group *)

Definition Chr (c : ascii) : regex := Cls (Ascii.eqb c).

Declare Scope regex_scope.
Delimit Scope regex_scope with re.
Bind Scope regex_scope with regex.
Notation "r1 ;; r2" := (Seq r1 r2)
  (at level 61, right associativity) : regex_scope.

(** A matcher state: characters consumed so far, text still to read, and
    the groups captured on this path (latest binding first). *)
Record mstate : Type := MState
  { pos : nat; rest : string; groups : list (nat * string) }.

Fixpoint group (n : nat) (g : list (nat * string)) : option string :=
  match g with
  | [] => None
  | (k, u) :: g' => if Nat.eqb k n then Some u else group n g'
  end.

(** [$] without MULTILINE: at the end, or before a final newline. *)
Definition at_end (s : string) : bool :=
  match s with
  | EmptyString => true
  | String c t => Ascii.eqb c newline && String.eqb t ""
  end.

(** All ways for [p*] to stop, longest run first. *)
Fixpoint star (p : ascii -> bool) (i : nat) (s : string)
  : list (nat * string) :=
  match s with
  | String c t => if p c then star p (S i) t ++ [(i, s)] else [(i, s)]
  | EmptyString => [(i, s)]
  end%list.

Definition resume (g : list (nat * string)) (x : nat * string) : mstate :=
  MState (fst x) (snd x) g.

Definition capture (n : nat) (st st' : mstate) : mstate :=
  MState (pos st') (rest st')
         ((n, substring 0 (pos st' - pos st) (rest st)) :: groups st').

(** The successful paths of [r] from [st], in the order a backtracking
    matcher tries them. *)
Fixpoint run (r : regex) (st : mstate) : list mstate :=
  match r with
  | Bos => if Nat.eqb (pos st) 0 then [st] else []
  | Eos => if at_end (rest st) then [st] else []
  | Cls p =>
      match rest st with
      | String c t => if p c then [MState (S (pos st)) t (groups st)] else []
      | EmptyString => []
      end
  | Seq r1 r2 => flat_map (run r2) (run r1 st)
  | Opt r1 => run r1 st ++ [st]
  | Star p => map (resume (groups st)) (star p (pos st) (rest st))
  | Plus p =>
      match rest st with
      | String c t =>
          if p c then map (resume (groups st)) (star p (S (pos st)) t)
          else []
      | EmptyString => []
      end
  | Grp n r1 => map (capture n st) (run r1 st)
  end%list.

(** [re.match(r, s)]: the groups of the first successful path. *)
Definition head_groups (l : list mstate) : option (list (nat * string)) :=
  match l with
  | [] => None
  | st :: _ => Some (groups st)
  end.

Definition re_match (r : regex) (s : string)
  : option (list (nat * string)) :=
  head_groups (run r (MState 0 s [])).

(** The language of a pattern, stated without reference to the search
    order: [sem r i u after g g'] says that [r], started at position [i]
    with groups [g], can consume exactly [u] when [after] follows, and
    leaves groups [g'].  [run] enumerates exactly these paths
    ([RegexFacts.run_sound], [RegexFacts.run_complete]). *)
Fixpoint sem (r : regex) (i : nat) (u after : string)
    (g g' : list (nat * string)) : Prop :=
  match r with
  | Bos => i = 0 /\ u = "" /\ g' = g
  | Eos => at_end after = true /\ u = "" /\ g' = g
  | Cls p => exists c, p c = true /\ u = String c "" /\ g' = g
  | Seq r1 r2 =>
      exists u1 u2 g1,
        u = u1 ++ u2 /\ sem r1 i u1 (u2 ++ after) g g1
        /\ sem r2 (i + String.length u1) u2 after g1 g'
  | Opt r1 => sem r1 i u after g g' \/ (u = "" /\ g' = g)
  | Star p => all p u = true /\ g' = g
  | Plus p => u <> "" /\ all p u = true /\ g' = g
  | Grp n r1 => exists g1, sem r1 i u after g g1 /\ g' = (n, u) :: g1
  end.

(** The continuation [K] of a greedy run of [p] rejects [p] when it
    cannot start on a character of [p]. *)
Definition rejects (p : ascii -> bool) (K : regex) : Prop :=
  forall i c t g, p c = true -> run K (MState i (String c t) g) = [].

(** [s] as a whole is a word of the grammar [r]. *)
Definition matches_exactly (r : regex) (s : string) : bool :=
  existsb (fun st => String.eqb (rest st) "") (run r (MState 0 s [])).

End Regex.

(* ===================================================================== *)
(** ** git-release.py *)
(* ===================================================================== *)

Module Release.
Import Text Regex.

Inductive BumpType : Type :=
| MAJOR | MINOR | PATCH | PREMAJOR | PREMINOR | PREPATCH | PRERELEASE.

(** [parse_version] either returns its tuple or prints the offending text
    and exits. *)
Inductive result (A : Type) : Type :=
| Ok (a : A)
| InvalidVersion (text : string).
Arguments Ok {A} a.
Arguments InvalidVersion {A} text.

Definition succeeded {A : Type} (r : result A) : bool :=
  match r with Ok _ => true | InvalidVersion _ => false end.

(** Truth value of a Python [str | None]. *)
Definition truthy (o : option string) : bool :=
  match o with
  | Some EmptyString => false
  | Some _ => true
  | None => false
  end.

(** [m.group(n)] for a group that lies outside every optional part of
    the pattern, and so is bound in every match
    ([ReleaseFacts.version_groups_bound]). *)
Definition required (n : nat) (g : list (nat * string)) : string :=
  match group n g with Some u => u | None => EmptyString end.

(** The end of the pattern, [(?:-([a-zA-Z]+)\.?(\d+)?)?$]. *)
Definition version_tail : regex :=
  (Opt (Chr "-" ;; Grp 4 (Plus is_letter) ;; Opt (Chr ".") ;;
        Opt (Grp 5 (Plus is_digit))) ;;
   Eos)%re.

(** [^(\d+)\.(\d+)\.(\d+)(?:-([a-zA-Z]+)\.?(\d+)?)?$] *)
Definition version_re : regex :=
  (Bos ;; Grp 1 (Plus is_digit) ;; Chr "." ;; Grp 2 (Plus is_digit) ;;
   Chr "." ;; Grp 3 (Plus is_digit) ;; version_tail)%re.

Definition version_tuple : Type :=
  (N * N * N * option string * option N)%type.

Definition parse_version (version : string) : result version_tuple :=
  let version := lstrip "v" version in
  match re_match version_re version with
  | None => InvalidVersion version
  | Some g =>
      let major := int (required 1 g) in
      let minor := int (required 2 g) in
      let patch := int (required 3 g) in
      let pre_type := group 4 g in
      let pre_num :=
        if truthy (group 5 g) then Some (int (required 5 g)) else None in
      Ok (major, minor, patch, pre_type, pre_num)
  end.

Definition format_version (major minor patch : N)
    (pre_type : option string) (pre_num : option N) (prefix : string)
  : string :=
  let version := prefix ++ str major ++ "." ++ str minor ++ "." ++ str patch in
  match pre_type with
  | Some (String _ _ as t) =>
      let version := version ++ "-" ++ t in
      match pre_num with
      | Some n => version ++ "." ++ str n
      | None => version
      end
  | _ => version
  end.

(** [pre_num or 0] *)
Definition or_zero (o : option N) : N :=
  match o with Some n => n | None => 0%N end.

(** The seven branches cover [BumpType]; the final [return current] of
    the source is not reached. *)
Definition bump_version (current : string) (bump_type : BumpType)
    (preid : string) : result string :=
  match parse_version current with
  | InvalidVersion text => InvalidVersion text
  | Ok (major, minor, patch, pre_type, pre_num) =>
      let prefix := if startswith current "v" then "v" else "" in
      Ok match bump_type with
         | MAJOR => format_version (major + 1) 0 0 None None prefix
         | MINOR => format_version major (minor + 1) 0 None None prefix
         | PATCH =>
             if truthy pre_type
             then format_version major minor patch None None prefix
             else format_version major minor (patch + 1) None None prefix
         | PREMAJOR =>
             format_version (major + 1) 0 0 (Some preid) (Some 0%N) prefix
         | PREMINOR =>
             format_version major (minor + 1) 0 (Some preid) (Some 0%N) prefix
         | PREPATCH =>
             format_version major minor (patch + 1) (Some preid) (Some 0%N)
                            prefix
         | PRERELEASE =>
             if truthy pre_type then
               let new_pre_num := (or_zero pre_num + 1)%N in
               format_version major minor patch pre_type (Some new_pre_num)
                              prefix
             else
               format_version major minor (patch + 1) (Some preid)
                              (Some 0%N) prefix
         end
  end.

(** The [dict] built by [get_commits_since_tag]. *)
Record commit : Type := Commit { hash : string; subject : string }.

(** One pass of the loop of [analyze_commits] over the two flags
    [(has_breaking, has_feat)]. *)
Definition analyze_step (flags : bool * bool) (c : commit) : bool * bool :=
  let subject := lower (subject c) in
  let has_breaking :=
    if contains "!" (before_first ":" subject) || contains "breaking" subject
    then true else fst flags in
  let has_feat :=
    if startswith subject "feat" then true else snd flags in
  (has_breaking, has_feat).

Definition analyze_commits (commits : list commit) : BumpType :=
  let (has_breaking, has_feat) :=
    fold_left analyze_step commits (false, false) in
  if has_breaking then MAJOR
  else if has_feat then MINOR
  else PATCH.

(** [get_commits_since_tag]: the range handed to [git log] ... *)
Definition range_spec (tag : option string) : string :=
  match tag with
  | Some (String _ _ as t) => t ++ "..HEAD"
  | _ => "HEAD"
  end.

(** ... and what its loop makes of one line of the output
    ([--format=%H|%s]): nothing of an empty line or of a line without a
    bar. *)
Definition commits_of_line (line : string) : list commit :=
  match line with
  | EmptyString => []
  | _ =>
      match split_max "|" 1 line with
      | [h; subj] => [Commit (take 8 h) subj]
      | _ => []
      end
  end.

(** [get_commits_since_tag], from the standard output of [git log]. *)
Definition commits_of_log (stdout : string) : list commit :=
  flat_map commits_of_line (split_on newline (strip stdout)).

(** The command [next], from what [get_current_version] returned and
    the standard output of [git log] for the commits since that tag:
    one of its four ways out. *)
Inductive next_report : Type :=
| NoVersionTags
| NoNewCommits
| Suggestion (current : string) (count : nat) (suggested_bump : BumpType)
             (next_version : string)
| Exited (text : string).

Definition next (current_version : option string) (log_stdout : string)
  : next_report :=
  match current_version with
  | Some (String _ _ as current) =>
      match commits_of_log log_stdout with
      | [] => NoNewCommits
      | commits =>
          let suggested_bump := analyze_commits commits in
          match bump_version current suggested_bump "alpha" with
          | Ok next_version =>
              Suggestion current (List.length commits) suggested_bump
                         next_version
          | InvalidVersion text => Exited text
          end
      end
  | _ => NoVersionTags
  end.

End Release.

(* ===================================================================== *)
(** ** git-changelog.py *)
(* ===================================================================== *)

Module Changelog.
Import Text Regex.

(** [COMMIT_TYPES], in the order of the dictionary literal. *)
Definition COMMIT_TYPES : list (string * (string * string)) :=
  [ ("feat", ("Features", "✨"));
    ("fix", ("Bug Fixes", "🐛"));
    ("docs", ("Documentation", "📚"));
    ("style", ("Styles", "💎"));
    ("refactor", ("Code Refactoring", "♻️"));
    ("perf", ("Performance", "⚡"));
    ("test", ("Tests", "🧪"));
    ("build", ("Build System", "📦"));
    ("ci", ("CI/CD", "🔧"));
    ("chore", ("Chores", "🔨"));
    ("revert", ("Reverts", "⏪"));
    ("security", ("Security", "🔒")) ].

(** [k in COMMIT_TYPES] *)
Definition known (k : string) : bool :=
  existsb (fun e => String.eqb (fst e) k) COMMIT_TYPES.

(** The end of the pattern, [\s*(.+)$]. *)
Definition message_re : regex :=
  (Star is_space ;; Grp 4 (Plus is_dot) ;; Eos)%re.

(** [^(\w+)(?:\(([^)]+)\))?(!)?\s*:\s*(.+)$] *)
Definition commit_re : regex :=
  (Bos ;; Grp 1 (Plus is_word) ;;
   Opt (Chr "(" ;; Grp 2 (Plus not_rparen) ;; Chr ")") ;;
   Opt (Grp 3 (Chr "!")) ;;
   Star is_space ;; Chr ":" ;; message_re)%re.

(** The pattern from the colon, from the ['!'] and from the scope on. *)
Definition colon_re : regex := (Star is_space ;; Chr ":" ;; message_re)%re.
Definition bang_re : regex := (Opt (Grp 3 (Chr "!")) ;; colon_re)%re.
Definition scope_re : regex :=
  (Opt (Chr "(" ;; Grp 2 (Plus not_rparen) ;; Chr ")") ;; bang_re)%re.

(** [m.group(n)] for a group that lies outside every optional part of
    the pattern, and so is bound in every match (third part of
    [ChangelogFacts.parse_commit_classifies]). *)
Definition required (n : nat) (g : list (nat * string)) : string :=
  match group n g with Some u => u | None => EmptyString end.

(** Returns [(type, scope, message, is_breaking)]. *)
Definition parse_commit (subject : string)
  : string * string * string * bool :=
  match re_match commit_re subject with
  | Some g =>
      let commit_type := lower (required 1 g) in
      let scope := match group 2 g with
                   | Some (String _ _ as u) => u
                   | _ => ""
                   end in
      let is_breaking := match group 3 g with
                         | Some (String _ _) => true
                         | _ => false
                         end in
      let message := required 4 g in
      (commit_type, scope, message, is_breaking)
  | None => ("other", "", subject, false)
  end.

(** The [dict] built by [get_commits_between] ... *)
Record commit : Type := Commit
  { hash : string; date : string; author : string; subject : string }.

(** ... and the same [dict] once [group_commits] has stored the four
    classification keys in it. *)
Record classified : Type := Classified
  { origin : commit;
    c_type : string; c_scope : string; c_message : string;
    c_breaking : bool }.

Definition classify (c : commit) : classified :=
  let '(commit_type, scope, message, is_breaking) :=
    parse_commit (subject c) in
  Classified c commit_type scope message is_breaking.

(** A [dict] from bucket name to commits, in insertion order of the
    keys. *)
Definition grouped : Type := list (string * list classified).

(** [g[k].append(c)] on a [defaultdict(list)]. *)
Fixpoint append_to (k : string) (c : classified) (g : grouped) : grouped :=
  match g with
  | [] => [(k, [c])]
  | (k', l) :: g' =>
      if String.eqb k' k then (k', l ++ [c]) :: g'
      else (k', l) :: append_to k c g'
  end%list.

(** [g[k]] guarded by [k in g]; the empty list when the key is absent. *)
Fixpoint bucket (k : string) (g : grouped) : list classified :=
  match g with
  | [] => []
  | (k', l) :: g' => if String.eqb k' k then l else bucket k g'
  end.

Definition bucket_key (c : classified) : string :=
  if known (c_type c) then c_type c else "other".

(** One pass of the loop of [group_commits]. *)
Definition step (g : grouped) (commit : commit) : grouped :=
  let c := classify commit in append_to (bucket_key c) c g.

Definition group_commits (commits : list commit) : grouped :=
  fold_left step commits [].

(** The list [breaking] collected at the start of [format_markdown]. *)
Definition breaking_changes (g : grouped) : list classified :=
  flat_map (fun kv => filter c_breaking (snd kv)) g.

Definition entry (c : classified) : string :=
  let scope := match c_scope c with
               | EmptyString => ""
               | String _ _ => "**" ++ c_scope c ++ ":** "
               end in
  "- " ++ scope ++ c_message c ++ " (" ++ hash (origin c) ++ ")".

Definition raw_entry (c : classified) : string :=
  "- " ++ subject (origin c) ++ " (" ++ hash (origin c) ++ ")".

Definition section (title : string) (entries : list string) : list string :=
  ([title; ""] ++ entries ++ [""])%list.

Definition type_section (g : grouped) (e : string * (string * string))
  : list string :=
  let '(commit_type, (title, emoji)) := e in
  match bucket commit_type g with
  | [] => []
  | l => section ("### " ++ emoji ++ " " ++ title) (map entry l)
  end.

(** The list [lines] of [format_markdown] just before it is joined. *)
Definition format_markdown_lines (version date : string) (g : grouped)
    (compare_url : option string) : list string :=
  let header :=
    match compare_url with
    | Some (String _ _ as url) =>
        "## [" ++ version ++ "](" ++ url ++ ") (" ++ date ++ ")"
    | _ => "## " ++ version ++ " (" ++ date ++ ")"
    end in
  let breaking := breaking_changes g in
  ([header; ""]
   ++ match breaking with
      | [] => []
      | _ => section "### ⚠️ BREAKING CHANGES" (map entry breaking)
      end
   ++ flat_map (type_section g) COMMIT_TYPES
   ++ match bucket "other" g with
      | [] => []
      | l => section "### Other Changes" (map raw_entry l)
      end)%list.

Definition format_markdown (version date : string) (g : grouped)
    (compare_url : option string) : string :=
  join (String newline "") (format_markdown_lines version date g compare_url).

(** [get_commits_between] either returns its list or raises the
    [IndexError] of [parts[1].split()[0]]. *)
Inductive outcome (A : Type) : Type :=
| Returned (a : A)
| IndexError.
Arguments Returned {A} a.
Arguments IndexError {A}.

(** The loop of [get_commits_between] over the lines of the output
    ([--format=%H|%ai|%an|%s]). *)
Fixpoint commits_of_lines (lines : list string) : outcome (list commit) :=
  match lines with
  | [] => Returned []
  | line :: lines' =>
      match line with
      | EmptyString => commits_of_lines lines'
      | _ =>
          match split_max "|" 3 line with
          | [h; d; a; subj] =>
              match first_word d with
              | None => IndexError
              | Some day =>
                  match commits_of_lines lines' with
                  | Returned commits =>
                      Returned (Commit (take 8 h) day a subj :: commits)
                  | IndexError => IndexError
                  end
              end
          | _ => commits_of_lines lines'
          end
      end
  end.

(** [get_commits_between], from the standard output of [git log], which
    [run_git] strips. *)
Definition commits_of_log (stdout : string) : outcome (list commit) :=
  commits_of_lines (split_on newline (strip stdout)).

(** The end of [main]: the text written to an output file that already
    exists, from the text [existing] that [read_text()] returned. *)
Definition merge_changelog (existing changelog : string) : string :=
  if startswith existing "# " then
    match find (String newline (String newline "")) existing with
    | Some header_end =>
        if Nat.ltb 0 header_end then
          take (header_end + 2) existing ++ changelog
          ++ String newline "" ++ drop (header_end + 2) existing
        else existing ++ String newline "" ++ changelog
    | None => existing ++ String newline "" ++ changelog
    end
  else changelog ++ String newline "" ++ existing.

(** A carriage return. *)
Definition carriage_return : ascii := "013"%char.

(** [Path.read_text()], from the characters stored in the file: text
    mode reads [\r\n] and a lone [\r] as [\n]. *)
Fixpoint read_text (content : string) : string :=
  match content with
  | EmptyString => EmptyString
  | String c t =>
      if Ascii.eqb c carriage_return then
        match t with
        | String d t' =>
            if Ascii.eqb d newline then String newline (read_text t')
            else String newline (read_text t)
        | EmptyString => String newline EmptyString
        end
      else String c (read_text t)
  end.

(** The text [main] hands to [write_text] when the output file exists
    and stores [content]. *)
Definition updated_text (content changelog : string) : string :=
  merge_changelog (read_text content) changelog.

End Changelog.

(* ===================================================================== *)
(** ** The grammars and shapes the statements refer to *)
(* ===================================================================== *)

Module Grammar.
Import Text Regex.

(** *** Versions *)

(** The version grammar as the specification words it,
    [[v]MAJOR.MINOR.PATCH[-IDENT[.NUM]]]. *)
Definition claimed_version_grammar : regex :=
  (Opt (Chr "v") ;; Plus is_digit ;; Chr "." ;; Plus is_digit ;; Chr "." ;;
   Plus is_digit ;;
   Opt (Chr "-" ;; Plus is_letter ;; Opt (Chr "." ;; Plus is_digit)))%re.

(** The version grammar with the dot and the number of the prerelease
    each optional on its own, [[v]MAJOR.MINOR.PATCH[-IDENT[.][NUM]]]. *)
Definition accepted_version_grammar : regex :=
  (Opt (Chr "v") ;; Plus is_digit ;; Chr "." ;; Plus is_digit ;; Chr "." ;;
   Plus is_digit ;;
   Opt (Chr "-" ;; Plus is_letter ;; Opt (Chr ".") ;; Opt (Plus is_digit)))%re.

(** The prerelease suffix of a version text, with the groups 4 and 5 it
    binds. *)
Definition pre_shape (o : string) (g : list (nat * string)) : Prop :=
  (o = "" /\ group 4 g = None /\ group 5 g = None)
  \/ exists id dot num,
       o = "-" ++ id ++ dot ++ num /\ runof is_letter id
       /\ (dot = "" \/ dot = ".") /\ all is_digit num = true
       /\ group 4 g = Some id
       /\ group 5 g = match num with "" => None | _ => Some num end.

Definition pre_text (o : string) : Prop :=
  o = "" \/ exists id dot num,
       o = "-" ++ id ++ dot ++ num /\ runof is_letter id
       /\ (dot = "" \/ dot = ".") /\ all is_digit num = true.

Definition version_text (t : string) : Prop :=
  exists ma mi pa o,
    t = ma ++ "." ++ mi ++ "." ++ pa ++ o
    /\ runof is_digit ma /\ runof is_digit mi /\ runof is_digit pa
    /\ pre_text o.

(** What [format_version] writes after the patch number. *)
Definition suffix_text (pt : option string) (pn : option N) : string :=
  match pt with
  | Some (String _ _ as t) =>
      "-" ++ t ++ match pn with Some n => "." ++ str n | None => "" end
  | _ => ""
  end.

(** The prefix [bump_version] carries over to its result. *)
Definition prefix_of (current : string) : string :=
  if startswith current "v" then "v" else "".

(** A version as a value: the tuple [parse_version] returns, its
    prerelease type and number as one optional pair, together with the
    prefix [bump_version] reads off the string. *)
Record SemanticVersion : Type := Version
  { major : N; minor : N; patch : N;
    prerelease : option (string * option N);
    prefix : string }.

Definition valid (v : SemanticVersion) : Prop :=
  (prefix v = "" \/ prefix v = "v")
  /\ match prerelease v with
     | Some (id, _) => runof is_letter id
     | None => True
     end.

Definition pre_type_of (v : SemanticVersion) : option string :=
  match prerelease v with Some (id, _) => Some id | None => None end.

Definition pre_num_of (v : SemanticVersion) : option N :=
  match prerelease v with Some (_, n) => n | None => None end.

Definition format (v : SemanticVersion) : string :=
  Release.format_version (major v) (minor v) (patch v)
                         (pre_type_of v) (pre_num_of v) (prefix v).

Definition parse (text : string) : Release.result SemanticVersion :=
  match Release.parse_version text with
  | Release.Ok (ma, mi, pa, pt, pn) =>
      Release.Ok
        (Version ma mi pa
                 match pt with Some id => Some (id, pn) | None => None end
                 (prefix_of text))
  | Release.InvalidVersion t => Release.InvalidVersion t
  end.

(** *** Release-bump suggestion *)

(** The two tests of the loop of [analyze_commits]. *)
Definition breaking_test (c : Release.commit) : bool :=
  contains "!" (before_first ":" (lower (Release.subject c)))
  || contains "breaking" (lower (Release.subject c)).

Definition feature_test (c : Release.commit) : bool :=
  startswith (lower (Release.subject c)) "feat".

(** The same tests on a lower-cased subject [t], as properties of the
    text: a ['!'] with no colon before it, or the word "breaking"
    anywhere; the four letters "feat" at the start. *)
Definition marks_breaking (t : string) : Prop :=
  (exists a b, t = a ++ "!" ++ b /\ all not_colon a = true)
  \/ (exists a b, t = a ++ "breaking" ++ b).

Definition marks_feature (t : string) : Prop := exists r, t = "feat" ++ r.

(** The rule as the specification words it: a ['!'] immediately before
    the header colon ... *)
Definition claimed_bang (subject : string) : bool :=
  contains ":" subject
  && match last_char (before_first ":" subject) with
     | Some c => Ascii.eqb c "!"
     | None => false
     end.

(** ... and the type of a subject, its lower-cased first word. *)
Definition claimed_type (subject : string) : string :=
  lower (fst (span is_word subject)).

Definition claimed_suggest (commits : list Release.commit)
  : Release.BumpType :=
  if existsb (fun c => claimed_bang (Release.subject c)
                       || contains "breaking" (lower (Release.subject c)))
             commits
  then Release.MAJOR
  else if existsb (fun c => String.eqb (claimed_type (Release.subject c))
                                       "feat") commits
  then Release.MINOR
  else Release.PATCH.

(** *** Commit subjects *)

(** The subject grammar as the specification words it,
    [type[(scope)][!]: message]: word characters, any text without [)]
    in parentheses, a ['!'] immediately before the colon, the colon,
    optional whitespace, and at least one character of message. *)
Definition claimed_commit_grammar : regex :=
  (Plus is_word ;; Opt (Chr "(" ;; Star not_rparen ;; Chr ")") ;;
   Opt (Chr "!") ;; Chr ":" ;; Star is_space ;; Plus (fun _ => true))%re.

Definition scope_text (sc : option string) : string :=
  match sc with Some x => "(" ++ x ++ ")" | None => "" end.

Definition bang_text (bang : bool) : string := if bang then "!" else "".

(** A header [type[(scope)][!]], whitespace, and the colon. *)
Definition header (ty : string) (sc : option string) (bang : bool)
    (ws : string) : string :=
  ty ++ scope_text sc ++ bang_text bang ++ ws ++ ":".

Definition header_ok (ty : string) (sc : option string) (ws : string)
  : Prop :=
  runof is_word ty
  /\ match sc with Some x => runof not_rparen x | None => True end
  /\ all is_space ws = true.

Definition header_groups (ty : string) (sc : option string) (bang : bool)
  : list (nat * string) :=
  ((if bang then [(3, "!")] else [])
   ++ match sc with Some x => [(2, x)] | None => [] end
   ++ [(1, ty)])%list.

(** The text after the colon without its leading whitespace; the last
    character is never stripped. *)
Fixpoint message_of (tail : string) : string :=
  match tail with
  | EmptyString => EmptyString
  | String c t =>
      if is_space c
      then match t with EmptyString => tail | _ => message_of t end
      else tail
  end.

(** *** Grouping and rendering *)

(** Keys in the order of their first occurrence. *)
Definition see (seen : list string) (k : string) : list string :=
  if existsb (String.eqb k) seen then seen else (seen ++ [k])%list.

Definition first_seen (ks : list string) : list string :=
  fold_left see ks [].

(** The commit belongs to the bucket [k]. *)
Definition in_bucket (k : string) (c : Changelog.classified) : bool :=
  String.eqb (Changelog.bucket_key c) k.

(** The section titles among the lines of a rendering. *)
Definition is_heading (line : string) : bool := startswith line "### ".

Definition headings (lines : list string) : list string :=
  filter is_heading lines.

Definition nonempty {A : Type} (l : list A) : bool :=
  match l with [] => false | _ :: _ => true end.

Definition heading_of (e : string * (string * string)) : string :=
  "### " ++ snd (snd e) ++ " " ++ fst (snd e).

(** Breaking changes, then the known types in the order of
    [COMMIT_TYPES], then the other changes; each only when it has
    entries. *)
Definition expected_headings (g : Changelog.grouped) : list string :=
  ((if nonempty (Changelog.breaking_changes g)
    then ["### ⚠️ BREAKING CHANGES"] else [])
   ++ flat_map (fun e => if nonempty (Changelog.bucket (fst e) g)
                         then [heading_of e] else [])
               Changelog.COMMIT_TYPES
   ++ (if nonempty (Changelog.bucket "other" g)
       then ["### Other Changes"] else []))%list.

(** Three commits, newest first; the second and the third are
    breaking. *)
Definition example_commits : list Changelog.commit :=
  [ Changelog.Commit "a1a1a1a1" "2024-01-03" "dev" "feat: add login";
    Changelog.Commit "b2b2b2b2" "2024-01-02" "dev" "fix!: crash on null";
    Changelog.Commit "c3c3c3c3" "2024-01-01" "dev" "feat!: drop v1 api" ].

End Grammar.

(* ===================================================================== *)
(** ** Vocabulary of the properties of log lines, renderings and files *)
(* ===================================================================== *)

Module Properties.
Import Text Regex Grammar.

(** *** Versions and bumps *)

(** The numeric part of a version, compared by major, then minor, then
    patch. *)
Definition triple : Type := (N * N * N)%type.

Definition triple_lt (a b : triple) : Prop :=
  let '(a1, a2, a3) := a in
  let '(b1, b2, b3) := b in
  (a1 < b1 \/ (a1 = b1 /\ (a2 < b2 \/ (a2 = b2 /\ a3 < b3))))%N.

(** The bump types that always give a release ... *)
Definition is_release_policy (b : Release.BumpType) : bool :=
  match b with
  | Release.MAJOR | Release.MINOR | Release.PATCH => true
  | _ => false
  end.

(** ... and those that always start the prerelease of a new release. *)
Definition is_pre_policy (b : Release.BumpType) : bool :=
  match b with
  | Release.PREMAJOR | Release.PREMINOR | Release.PREPATCH => true
  | _ => false
  end.

(** The larger of two suggestions, [major] above [minor] above
    [patch]. *)
Definition stronger (a b : Release.BumpType) : Release.BumpType :=
  match a, b with
  | Release.MAJOR, _ | _, Release.MAJOR => Release.MAJOR
  | Release.MINOR, _ | _, Release.MINOR => Release.MINOR
  | _, _ => Release.PATCH
  end.

Definition digit_or_newline (c : ascii) : bool :=
  is_digit c || Ascii.eqb c newline.

(** *** Lines of [git log] *)

(** Any character but [sep]. *)
Definition no (sep : ascii) (c : ascii) : bool := negb (Ascii.eqb c sep).

(** The last character of [s] satisfies [p]. *)
Definition ends (p : ascii -> bool) (s : string) : bool :=
  match last_char s with
  | Some c => p c
  | None => false
  end.

(** A field of a log line before the last one holds no bar and no
    newline. *)
Definition field_char (c : ascii) : bool := no "|" c && is_dot c.

(** A commit hash, and the day of a date, hold no white space and no
    bar. *)
Definition hash_char (c : ascii) : bool := not_space c && no "|" c.










(** *** Rendering *)

(** The list items among the lines of a rendering. *)
Definition is_entry (line : string) : bool := startswith line "- ".

(** The names a bucket can have. *)
Definition bucket_names : list string :=
  (map fst Changelog.COMMIT_TYPES ++ ["other"])%list.

(** *** Reading a rendering back *)

(** The list items that follow, up to the next section title. *)
Fixpoint items_until_heading (lines : list string) : list string :=
  match lines with
  | [] => []
  | line :: rest =>
      if is_heading line then []
      else if is_entry line then line :: items_until_heading rest
      else items_until_heading rest
  end.

(** The sections of a rendering, in the order they stand in it: each
    section title with the list items under it. *)
Fixpoint sections_of_lines (lines : list string)
  : list (string * list string) :=
  match lines with
  | [] => []
  | line :: rest =>
      if is_heading line
      then (line, items_until_heading rest) :: sections_of_lines rest
      else sections_of_lines rest
  end.

(** The same, from the rendered text. *)
Definition sections_of (text : string) : list (string * list string) :=
  sections_of_lines (split_on newline text).

Definition breaking_title : string := "### ⚠️ BREAKING CHANGES".
Definition other_title : string := "### Other Changes".

(** A section that is there only when it has items. *)
Definition titled {A : Type} (title : string) (f : A -> string)
    (l : list A) : list (string * list string) :=
  match l with
  | [] => []
  | _ => [(title, map f l)]
  end.

(** The lines of such a section. *)
Definition optional_section {A : Type} (title : string) (f : A -> string)
    (l : list A) : list string :=
  match l with
  | [] => []
  | _ => Changelog.section title (map f l)
  end.

(** The sections a grouped change set is to give: the breaking changes,
    then the known types in the order of [COMMIT_TYPES], each with the
    items of its bucket, then the other changes with their raw
    subjects; each only when it has items. *)
Definition expected_sections (g : Changelog.grouped)
  : list (string * list string) :=
  (titled breaking_title Changelog.entry (Changelog.breaking_changes g)
   ++ flat_map (fun e => titled (heading_of e) Changelog.entry
                           (Changelog.bucket (fst e) g))
               Changelog.COMMIT_TYPES
   ++ titled other_title Changelog.raw_entry (Changelog.bucket "other" g))%list.

(** Text without a newline. *)
Definition one_line (s : string) : Prop := all is_dot s = true.

Definition one_line_url (url : option string) : Prop :=
  match url with
  | Some u => one_line u
  | None => True
  end.

(** A commit whose hash and subject are one line each, ... *)
Definition one_line_source (c : Changelog.commit) : Prop :=
  one_line (Changelog.hash c) /\ one_line (Changelog.subject c).

(** ... a classified commit all of whose printed fields are, ... *)
Definition one_line_commit (c : Changelog.classified) : Prop :=
  one_line (Changelog.c_scope c) /\ one_line (Changelog.c_message c)
  /\ one_line_source (Changelog.origin c).

(** ... and a grouped change set of such commits. *)
Definition one_line_grouped (g : Changelog.grouped) : Prop :=
  Forall (fun kv => Forall one_line_commit (snd kv)) g.

(** *** The changelog file *)

(** An empty line, as [find] looks for it. *)
Definition blank_line : string := String newline (String newline "").

End Properties.

(* ===================================================================== *)
(** ** Facts about strings and character classes *)
(* ===================================================================== *)

Module TextFacts.
Import Text.

Lemma app_nil_r (s : string) : s ++ "" = s.
Proof. induction s as [|c s IH]; simpl; congruence. Qed.

Lemma app_assoc (a b c : string) : (a ++ b) ++ c = a ++ b ++ c.
Proof. induction a as [|x a IH]; simpl; congruence. Qed.

Lemma length_app (a b : string) :
  String.length (a ++ b) = String.length a + String.length b.
Proof. induction a as [|x a IH]; simpl; congruence. Qed.

Lemma substring_app (u v : string) :
  substring 0 (String.length u) (u ++ v) = u.
Proof.
  induction u as [|c u IH]; simpl.
  - now destruct v.
  - now rewrite IH.
Qed.

Lemma all_app (p : ascii -> bool) (a b : string) :
  all p (a ++ b) = all p a && all p b.
Proof.
  induction a as [|x a IH]; simpl; [reflexivity|].
  now rewrite IH, andb_assoc.
Qed.

(** A run of [p] followed by something that does not start in [p] is
    found again by [span]. *)
Lemma span_app (p : ascii -> bool) (u v : string) :
  all p u = true -> starts p v = false -> span p (u ++ v) = (u, v).
Proof.
  induction u as [|c u IH]; simpl; intros Hu Hv.
  - destruct v as [|c v]; [reflexivity|]. simpl in *. now rewrite Hv.
  - apply andb_true_iff in Hu as [Hc Hu]. rewrite Hc, IH; auto.
Qed.

Lemma startswith_iff s pre :
  startswith s pre = true <-> exists r, s = pre ++ r.
Proof.
  revert s. induction pre as [|a pre IH]; intros s; simpl.
  - split; eauto.
  - destruct s as [|b s].
    + split; [discriminate|]. intros [r [=]].
    + rewrite andb_true_iff, Ascii.eqb_eq, IH. split.
      * intros [-> [r ->]]. eauto.
      * intros [r [= -> ->]]. eauto.
Qed.

Lemma contains_iff needle s :
  contains needle s = true <-> exists a b, s = a ++ needle ++ b.
Proof.
  induction s as [|c s IH]; simpl.
  - rewrite orb_false_r, startswith_iff. split.
    + intros [r E]. exists "", r. exact E.
    + intros (a & b & E). destruct a as [|x a]; [|discriminate]. eauto.
  - rewrite orb_true_iff, startswith_iff, IH. split.
    + intros [[r E]|(a & b & ->)].
      * exists "", r. exact E.
      * exists (String c a), b. reflexivity.
    + intros (a & b & E). destruct a as [|x a].
      * left. eauto.
      * right. injection E as -> ->. eauto.
Qed.

Lemma before_first_app a x :
  all not_colon a = true ->
  before_first ":" (a ++ x) = a ++ before_first ":" x.
Proof.
  induction a as [|c a IH]; simpl; [reflexivity|].
  unfold not_colon at 1. intros H. apply andb_true_iff in H as [Hc Ha].
  apply negb_true_iff in Hc. now rewrite Hc, IH.
Qed.

Lemma before_first_split s :
  all not_colon (before_first ":" s) = true
  /\ exists r, s = before_first ":" s ++ r.
Proof.
  induction s as [|c s [IH1 [r IH2]]]; simpl.
  - split; [reflexivity|now exists ""].
  - destruct (Ascii.eqb c ":") eqn:E; simpl.
    + split; [reflexivity|eauto].
    + unfold not_colon at 1. rewrite E, IH1. split; [reflexivity|].
      exists r. now rewrite <- IH2.
Qed.

Lemma bang_in_header_iff t :
  contains "!" (before_first ":" t) = true
  <-> exists a b, t = a ++ "!" ++ b /\ all not_colon a = true.
Proof.
  rewrite contains_iff. split.
  - intros (a & b & E).
    destruct (before_first_split t) as [Hall [r Ht]].
    exists a, (b ++ r). split.
    + rewrite Ht at 1. rewrite E. now rewrite !app_assoc.
    + rewrite E, all_app in Hall. now apply andb_true_iff in Hall as [H _].
  - intros (a & b & -> & Ha). rewrite (before_first_app _ _ Ha). simpl. eauto.
Qed.

Lemma existsb_iff {A} (f : A -> bool) (P : A -> Prop) l :
  (forall x, f x = true <-> P x) ->
  existsb f l = true <-> exists x, In x l /\ P x.
Proof.
  intros H. rewrite existsb_exists. split; intros (x & Hin & Hx); exists x;
    (split; [assumption|now apply H]).
Qed.

Ltac by_cases c H :=
  destruct c as [[] [] [] [] [] [] [] []];
  try (vm_compute in H; discriminate H); reflexivity.

Lemma space_not_word c : is_space c = true -> is_word c = false.
Proof. intros H. by_cases c H. Qed.
Lemma space_not_lparen c : is_space c = true -> Ascii.eqb "(" c = false.
Proof. intros H. by_cases c H. Qed.
Lemma space_not_bang c : is_space c = true -> Ascii.eqb "!" c = false.
Proof. intros H. by_cases c H. Qed.

Lemma starts_after_space (q : ascii -> bool) ws x :
  all is_space ws = true ->
  (forall c, is_space c = true -> q c = false) ->
  starts q x = false -> starts q (ws ++ x) = false.
Proof.
  intros Hws Hq Hx. destruct ws as [|c ws]; [exact Hx|].
  simpl in *. apply andb_true_iff in Hws as [Hc _]. auto.
Qed.

End TextFacts.

(* ===================================================================== *)
(** ** The matcher enumerates the language of the pattern *)
(* ===================================================================== *)

Module RegexFacts.
Import Text Regex TextFacts.

Lemma star_sound (p : ascii -> bool) (s : string) :
  forall i j t, In (j, t) (star p i s) ->
    exists u, s = u ++ t /\ j = i + String.length u /\ all p u = true.
Proof.
  induction s as [|c s IH]; simpl; intros i j t H.
  - destruct H as [[= <- <-]|[]]. exists "". auto.
  - assert (Here : (i, String c s) = (j, t) ->
              exists u, String c s = u ++ t /\ j = i + String.length u
                        /\ all p u = true).
    { intros [= <- <-]. exists "". auto. }
    destruct (p c) eqn:E.
    + apply in_app_or in H as [H|[H|[]]]; [|auto].
      apply IH in H as (u & -> & -> & Hu).
      exists (String c u). simpl. rewrite E, Hu. repeat split. lia.
    + destruct H as [H|[]]; auto.
Qed.

Lemma star_complete (p : ascii -> bool) (u t : string) :
  all p u = true ->
  forall i, In (i + String.length u, t) (star p i (u ++ t)).
Proof.
  induction u as [|c u IH]; simpl; intros Hu i.
  - rewrite Nat.add_0_r. destruct t as [|c t]; simpl; [now left|].
    destruct (p c); [apply in_or_app; right|]; now left.
  - apply andb_true_iff in Hu as [Hc Hu]. rewrite Hc.
    apply in_or_app. left. rewrite <- Nat.add_succ_comm. now apply IH.
Qed.

(** Every path found by [run] is a path of the language. *)
Theorem run_sound (r : regex) :
  forall st st', In st' (run r st) ->
    exists u, rest st = u ++ rest st'
              /\ pos st' = pos st + String.length u
              /\ sem r (pos st) u (rest st') (groups st) (groups st').
Proof.
  induction r as [| |p|r1 IH1 r2 IH2|r1 IH1|p|p|n r1 IH1];
    intros st st' H; simpl in H.
  - destruct (Nat.eqb_spec (pos st) 0) as [E|E]; [|destruct H].
    destruct H as [<-|[]]. exists "". simpl. auto.
  - destruct (at_end (rest st)) eqn:E; [|destruct H].
    destruct H as [<-|[]]. exists "". simpl. auto.
  - destruct (rest st) as [|c t] eqn:E; [destruct H|].
    destruct (p c) eqn:Ep; [|destruct H].
    destruct H as [<-|[]]. exists (String c ""). simpl.
    repeat split; [lia|]. exists c. auto.
  - apply in_flat_map in H as (st1 & H1 & H2).
    apply IH1 in H1 as (u1 & E1 & P1 & S1).
    apply IH2 in H2 as (u2 & E2 & P2 & S2).
    exists (u1 ++ u2). rewrite app_assoc, length_app, <- E2.
    repeat split; [assumption|lia|].
    simpl. exists u1, u2, (groups st1). rewrite <- E2, <- P1. auto.
  - apply in_app_or in H as [H|[<-|[]]].
    + apply IH1 in H as (u & E & P & S). exists u. simpl. auto.
    + exists "". simpl. auto.
  - apply in_map_iff in H as ([j t] & <- & H).
    apply star_sound in H as (u & E & -> & Hu). exists u. simpl. auto.
  - destruct (rest st) as [|c t] eqn:E; [destruct H|].
    destruct (p c) eqn:Ep; [|destruct H].
    apply in_map_iff in H as ([j t'] & <- & H).
    apply star_sound in H as (u & -> & -> & Hu).
    exists (String c u). simpl. rewrite Ep, Hu.
    repeat split; [lia|discriminate].
  - apply in_map_iff in H as (st1 & <- & H).
    apply IH1 in H as (u & E & P & S). exists u. simpl.
    repeat split; [assumption..|].
    exists (groups st1). split; [assumption|].
    rewrite E, P. replace (pos st + String.length u - pos st)
      with (String.length u) by lia.
    now rewrite substring_app.
Qed.

(** Every path of the language is found by [run]. *)
Theorem run_complete (r : regex) :
  forall i u after g g', sem r i u after g g' ->
    In (MState (i + String.length u) after g')
       (run r (MState i (u ++ after) g)).
Proof.
  induction r as [| |p|r1 IH1 r2 IH2|r1 IH1|p|p|n r1 IH1];
    intros i u after g g' H; simpl in H.
  - destruct H as (-> & -> & ->). simpl. now left.
  - destruct H as (E & -> & ->). simpl. rewrite E, Nat.add_0_r. now left.
  - destruct H as (c & Ep & -> & ->). simpl. rewrite Ep.
    left. f_equal. lia.
  - destruct H as (u1 & u2 & g1 & -> & H1 & H2).
    apply IH1 in H1. apply IH2 in H2.
    simpl. apply in_flat_map. eexists. rewrite app_assoc.
    split; [exact H1|]. now rewrite length_app, Nat.add_assoc.
  - simpl. apply in_or_app. destruct H as [H|[-> ->]].
    + left. now apply IH1.
    + right. left. simpl. now rewrite Nat.add_0_r.
  - destruct H as (Hu & ->). simpl. apply in_map_iff.
    exists (i + String.length u, after). split; [reflexivity|].
    now apply star_complete.
  - destruct H as (Hne & Hu & ->).
    destruct u as [|c u]; [now destruct Hne|].
    simpl in *. apply andb_true_iff in Hu as [Hc Hu]. rewrite Hc.
    apply in_map_iff. exists (i + S (String.length u), after).
    split; [reflexivity|].
    rewrite <- Nat.add_succ_comm. now apply star_complete.
  - destruct H as (g1 & H & ->). apply IH1 in H.
    simpl. apply in_map_iff. eexists. split; [|exact H].
    unfold capture. simpl. f_equal. f_equal. f_equal.
    replace (i + String.length u - i) with (String.length u) by lia.
    apply substring_app.
Qed.

(** [re.match] succeeds exactly on the strings with a prefix in the
    language. *)
Lemma re_match_some (r : regex) (s : string) (g : list (nat * string)) :
  re_match r s = Some g ->
  exists u after, s = u ++ after /\ sem r 0 u after [] g.
Proof.
  unfold re_match. destruct (run r (MState 0 s [])) as [|st l] eqn:E.
  - discriminate.
  - intros [= <-].
    destruct (run_sound r (MState 0 s []) st) as (u & Hs & _ & Hsem).
    { rewrite E. now left. }
    exists u, (rest st). auto.
Qed.

Lemma re_match_none (r : regex) (s : string) :
  re_match r s = None ->
  forall u after g, s = u ++ after -> ~ sem r 0 u after [] g.
Proof.
  unfold re_match. intros H u after g -> Hsem.
  apply run_complete in Hsem.
  destruct (run r (MState 0 (u ++ after) [])); [destruct Hsem|discriminate].
Qed.

Lemma matches_exactly_iff (r : regex) (s : string) :
  matches_exactly r s = true <-> exists g, sem r 0 s "" [] g.
Proof.
  unfold matches_exactly. rewrite existsb_exists. split.
  - intros (st & Hin & E). apply String.eqb_eq in E.
    apply run_sound in Hin as (u & Hs & _ & Hsem). simpl in *.
    rewrite E, app_nil_r in Hs. subst u. rewrite E in Hsem. eauto.
  - intros (g & Hsem). apply run_complete in Hsem.
    rewrite app_nil_r in Hsem. eexists. split; [exact Hsem|reflexivity].
Qed.

(** *** Evaluating a pattern along a known path

    When the continuation [K] of a greedy run of [p] rejects [p],
    backtracking into the run never succeeds, and the run stops where
    [span] does. *)
Ltac reject_by_cases :=
  let H := fresh "H" in
  let c := fresh "c" in
  intros ? c ? ? H;
  destruct c as [[] [] [] [] [] [] [] []];
  try (vm_compute in H; discriminate H);
  reflexivity.

Lemma flat_map_assoc {A B C : Type} (f : A -> list B) (h : B -> list C)
    (l : list A) :
  flat_map h (flat_map f l) = flat_map (fun x => flat_map h (f x)) l.
Proof.
  induction l as [|x l IH]; simpl; [reflexivity|].
  now rewrite flat_map_app, IH.
Qed.

Lemma run_seq_assoc (a b K : regex) (st : mstate) :
  run ((a ;; b) ;; K) st = run (a ;; b ;; K) st.
Proof. simpl. apply flat_map_assoc. Qed.

Lemma run_opt_seq (X K : regex) (st : mstate) :
  run (Opt X ;; K) st = (run (X ;; K) st ++ run K st)%list.
Proof. simpl. rewrite flat_map_app. simpl. now rewrite List.app_nil_r. Qed.

Lemma run_bos_seq (K : regex) (s : string) (g : list (nat * string)) :
  run (Bos ;; K) (MState 0 s g) = run K (MState 0 s g).
Proof. simpl. apply List.app_nil_r. Qed.

Lemma run_chr_seq (c : ascii) (K : regex) i v g :
  run (Chr c ;; K) (MState i (String c v) g) = run K (MState (S i) v g).
Proof. simpl. rewrite Ascii.eqb_refl. simpl. apply List.app_nil_r. Qed.

Lemma run_grp_chr_seq (n : nat) (c : ascii) (K : regex) i v g :
  run (Grp n (Chr c) ;; K) (MState i (String c v) g)
  = run K (MState (S i) v ((n, String c "") :: g)).
Proof.
  simpl. rewrite Ascii.eqb_refl. simpl. rewrite List.app_nil_r.
  unfold capture. simpl pos. simpl rest. simpl groups.
  replace (S i - i) with 1 by lia. simpl. now destruct v.
Qed.

(** The paths of a greedy run, each resumed with groups that may depend
    on where the run stopped. *)
Lemma flat_map_star_gen (p : ascii -> bool) (K : regex)
    (G : nat -> list (nat * string)) :
  rejects p K ->
  forall s i,
    flat_map (run K)
      (map (fun x => MState (fst x) (snd x) (G (fst x))) (star p i s))
    = run K (MState (i + String.length (fst (span p s)))
                    (snd (span p s))
                    (G (i + String.length (fst (span p s))))).
Proof.
  intros HK. induction s as [|c s IH]; intros i; simpl.
  - now rewrite List.app_nil_r, Nat.add_0_r.
  - destruct (p c) eqn:E; simpl.
    + rewrite map_app, flat_map_app, IH. simpl.
      rewrite (HK _ _ _ _ E). simpl. rewrite List.app_nil_r.
      destruct (span p s) as [u v]. simpl. now rewrite Nat.add_succ_r.
    + now rewrite List.app_nil_r, Nat.add_0_r.
Qed.

Lemma run_star_seq (p : ascii -> bool) (K : regex) i u v g :
  rejects p K -> all p u = true -> starts p v = false ->
  run (Star p ;; K) (MState i (u ++ v) g)
  = run K (MState (i + String.length u) v g).
Proof.
  intros HK Hu Hv. simpl.
  rewrite (flat_map_star_gen p K (fun _ => g) HK).
  now rewrite (span_app p u v Hu Hv).
Qed.

Lemma run_grp_plus_seq (n : nat) (p : ascii -> bool) (K : regex) i u v g :
  rejects p K -> all p u = true -> u <> "" -> starts p v = false ->
  run (Grp n (Plus p) ;; K) (MState i (u ++ v) g)
  = run K (MState (i + String.length u) v ((n, u) :: g)).
Proof.
  intros HK Hu Hne Hv.
  destruct u as [|c u]; [now destruct Hne|].
  simpl in Hu. apply andb_true_iff in Hu as [Hc Hu].
  simpl. rewrite Hc, map_map.
  rewrite (flat_map_star_gen p K
             (fun j => (n, substring 0 (j - i) (String c (u ++ v))) :: g) HK).
  rewrite (span_app p u v Hu Hv). simpl fst. simpl snd.
  replace (S i + String.length u - i) with (S (String.length u)) by lia.
  change (S (String.length u)) with (String.length (String c u)).
  change (String c (u ++ v)) with (String c u ++ v).
  rewrite substring_app. simpl. now rewrite Nat.add_succ_r.
Qed.

Lemma run_grp_plus_end (n : nat) (p : ascii -> bool) (K : regex) i u g :
  rejects p K -> all p u = true -> u <> "" ->
  run (Grp n (Plus p) ;; K) (MState i u g)
  = run K (MState (i + String.length u) "" ((n, u) :: g)).
Proof.
  intros HK Hu Hne.
  rewrite <- (run_grp_plus_seq n p K i u "" g HK Hu Hne eq_refl).
  now rewrite app_nil_r.
Qed.

Lemma run_grp_plus_none (n : nat) (p : ascii -> bool) (K : regex) i v g :
  starts p v = false -> run (Grp n (Plus p) ;; K) (MState i v g) = [].
Proof. intros Hv. destruct v as [|c v]; simpl in *; [|rewrite Hv]; reflexivity. Qed.

Lemma run_chr_none c K i v g :
  starts (Ascii.eqb c) v = false -> run (Chr c ;; K) (MState i v g) = [].
Proof. intros H. destruct v as [|d v]; simpl in *; [|rewrite H]; reflexivity. Qed.

Lemma run_grp_chr_none n c K i v g :
  starts (Ascii.eqb c) v = false ->
  run (Grp n (Chr c) ;; K) (MState i v g) = [].
Proof. intros H. destruct v as [|d v]; simpl in *; [|rewrite H]; reflexivity. Qed.

Lemma run_star_cons_seq p K i c t g :
  p c = true ->
  run (Star p ;; K) (MState i (String c t) g)
  = (run (Star p ;; K) (MState (S i) t g) ++ run K (MState i (String c t) g))%list.
Proof.
  intros Hc. simpl. rewrite Hc, map_app, flat_map_app. simpl.
  now rewrite List.app_nil_r.
Qed.

Lemma run_star_stop_seq p K i s g :
  starts p s = false ->
  run (Star p ;; K) (MState i s g) = run K (MState i s g).
Proof.
  intros Hs. destruct s as [|c t]; simpl in *; [|rewrite Hs]; simpl;
    now rewrite List.app_nil_r.
Qed.

Ltac side := first [assumption | reflexivity | discriminate | reject_by_cases].

Ltac break :=
  repeat match goal with
  | H : exists _, _ |- _ => destruct H
  | H : _ /\ _ |- _ => destruct H
  | H : _ \/ _ |- _ => destruct H
  end; subst.

Ltac chars :=
  repeat match goal with
  | H : Ascii.eqb _ _ = true |- _ => apply Ascii.eqb_eq in H; subst
  end.

Lemma re_match_head r s : re_match r s = head_groups (run r (MState 0 s [])).
Proof. reflexivity. Qed.

Lemma head_groups_app l1 l2 g :
  head_groups l1 = Some g -> head_groups (l1 ++ l2)%list = Some g.
Proof. destruct l1; [discriminate|auto]. Qed.

(** *** Building a path of the language *)

Lemma sem_seq_intro a K i u1 u2 after g g1 g' :
  sem a i u1 (u2 ++ after) g g1 ->
  sem K (i + String.length u1) u2 after g1 g' ->
  sem (a ;; K) i (u1 ++ u2) after g g'.
Proof. intros H1 H2. simpl. exists u1, u2, g1. auto. Qed.

Lemma sem_chr c i after g : sem (Chr c) i (String c "") after g g.
Proof. simpl. exists c. rewrite Ascii.eqb_refl. auto. Qed.

Lemma sem_plus p i u after g : runof p u -> sem (Plus p) i u after g g.
Proof. intros [? ?]. simpl. auto. Qed.

Lemma sem_grp n r i u after g g1 :
  sem r i u after g g1 -> sem (Grp n r) i u after g ((n, u) :: g1).
Proof. intros H. simpl. eauto. Qed.

Lemma sem_opt_chr c i u after g :
  u = "" \/ u = String c "" -> sem (Opt (Chr c)) i u after g g.
Proof.
  intros [->| ->]; simpl; [now right|left].
  exists c. rewrite Ascii.eqb_refl. auto.
Qed.

Lemma sem_opt_plus p i u after g :
  all p u = true -> sem (Opt (Plus p)) i u after g g.
Proof.
  intros H. simpl. destruct u; [right|left]; auto. repeat split; auto.
  discriminate.
Qed.

Lemma sem_opt_grp_plus n p i u after g :
  all p u = true ->
  exists g', sem (Opt (Grp n (Plus p))) i u after g g'.
Proof.
  intros H. simpl. destruct u as [|c u].
  - exists g. now right.
  - eexists. left. eexists. repeat split; eauto. discriminate.
Qed.

End RegexFacts.

(* ===================================================================== *)
(** ** Facts about git-release.py *)
(* ===================================================================== *)

Module ReleaseFacts.
Import Text Regex Grammar TextFacts RegexFacts Release.

(** *** Decimal numerals *)

Example int_leading_zeros : int "0042" = 42%N.
Proof. reflexivity. Qed.

Example str_zero : str 0 = "0" /\ str 1203 = "1203".
Proof. split; reflexivity. Qed.

Lemma uint_digits (d : Decimal.uint) :
  all is_digit (NilEmpty.string_of_uint d) = true.
Proof. induction d; simpl; auto. Qed.

Lemma str_digits (n : N) : all is_digit (str n) = true.
Proof.
  unfold str, NilZero.string_of_uint.
  destruct (N.to_uint n) eqn:E; try reflexivity;
    rewrite <- E at 1; apply uint_digits.
Qed.

Lemma str_nonempty (n : N) : str n <> "".
Proof.
  unfold str, NilZero.string_of_uint.
  destruct (N.to_uint n); discriminate.
Qed.

Lemma int_str (n : N) : int (str n) = n.
Proof.
  unfold int, str, NilZero.string_of_uint.
  rewrite <- (DecimalN.Unsigned.of_to n) at 2.
  destruct (N.to_uint n) eqn:E; try reflexivity;
    rewrite <- E at 1; rewrite NilEmpty.usu; rewrite E; reflexivity.
Qed.

Lemma str_starts_digit (n : N) (v : string) :
  starts is_digit (str n ++ v) = true.
Proof.
  pose proof (str_digits n) as H. pose proof (str_nonempty n) as Hne.
  destruct (str n) as [|c t]; [now destruct Hne|].
  simpl in *. now apply andb_true_iff in H as [H _].
Qed.

(** *** Evaluating the version pattern *)

Lemma version_run_core (ma mi pa sfx : string) :
  all is_digit ma = true -> ma <> "" ->
  all is_digit mi = true -> mi <> "" ->
  all is_digit pa = true -> pa <> "" ->
  starts is_digit sfx = false ->
  run version_re (MState 0 (ma ++ "." ++ mi ++ "." ++ pa ++ sfx) [])
  = run version_tail
      (MState (String.length ma + 1 + String.length mi + 1 + String.length pa) sfx
              [(3, pa); (2, mi); (1, ma)]).
Proof.
  intros Ha Hna Hi Hni Hp Hnp Hs.
  unfold version_re. rewrite run_bos_seq.
  cbn [append].
  rewrite run_grp_plus_seq by side.
  rewrite run_chr_seq.
  rewrite run_grp_plus_seq by side.
  rewrite run_chr_seq.
  rewrite run_grp_plus_seq by side.
  do 2 f_equal. simpl. lia.
Qed.

Lemma pre_run_id i id g :
  all is_letter id = true -> id <> "" ->
  head_groups (run version_tail (MState i ("-" ++ id) g)) = Some ((4, id) :: g).
Proof.
  intros Hl Hn. unfold version_tail.
  rewrite run_opt_seq, !run_seq_assoc. cbn [append]. rewrite run_chr_seq.
  rewrite !run_seq_assoc.
  rewrite run_grp_plus_end by side.
  reflexivity.
Qed.

Lemma pre_run_id_num i id num g :
  all is_letter id = true -> id <> "" ->
  all is_digit num = true -> num <> "" ->
  head_groups (run version_tail (MState i ("-" ++ id ++ "." ++ num) g))
  = Some ((5, num) :: (4, id) :: g).
Proof.
  intros Hl Hn Hd Hdn. unfold version_tail.
  rewrite run_opt_seq, !run_seq_assoc. cbn [append]. rewrite run_chr_seq.
  rewrite !run_seq_assoc.
  rewrite run_grp_plus_seq by side.
  rewrite !run_seq_assoc, run_opt_seq, run_chr_seq, run_opt_seq.
  rewrite run_grp_plus_end by side.
  reflexivity.
Qed.

Section Formatted.
Variables ma mi pa : string.
Hypothesis Ha : all is_digit ma = true.
Hypothesis Hna : ma <> "".
Hypothesis Hi : all is_digit mi = true.
Hypothesis Hni : mi <> "".
Hypothesis Hp : all is_digit pa = true.
Hypothesis Hnp : pa <> "".

Lemma version_match_plain :
  re_match version_re (ma ++ "." ++ mi ++ "." ++ pa)
  = Some [(3, pa); (2, mi); (1, ma)].
Proof.
  rewrite re_match_head.
  rewrite <- (app_nil_r pa) at 1.
  rewrite version_run_core; auto.
Qed.

Lemma version_match_id id :
  all is_letter id = true -> id <> "" ->
  re_match version_re (ma ++ "." ++ mi ++ "." ++ pa ++ "-" ++ id)
  = Some [(4, id); (3, pa); (2, mi); (1, ma)].
Proof.
  intros. rewrite re_match_head, version_run_core; auto.
  now apply pre_run_id.
Qed.

Lemma version_match_id_num id num :
  all is_letter id = true -> id <> "" ->
  all is_digit num = true -> num <> "" ->
  re_match version_re (ma ++ "." ++ mi ++ "." ++ pa ++ "-" ++ id ++ "." ++ num)
  = Some [(5, num); (4, id); (3, pa); (2, mi); (1, ma)].
Proof.
  intros. rewrite re_match_head, version_run_core; auto.
  now apply pre_run_id_num.
Qed.
End Formatted.

(** *** The shape of the strings the pattern matches *)

Lemma version_sem_inv u after g :
  sem version_re 0 u after [] g ->
  exists ma mi pa o,
    u = ma ++ "." ++ mi ++ "." ++ pa ++ o
    /\ runof is_digit ma /\ runof is_digit mi /\ runof is_digit pa
    /\ group 1 g = Some ma /\ group 2 g = Some mi /\ group 3 g = Some pa
    /\ at_end after = true /\ pre_shape o g.
Proof.
  intros H. cbn [sem version_re version_tail Chr] in H.
  break.
  all: chars.
  all: cbn [append].
  all: eexists _, _, _, _; split; [reflexivity|].
  all: unfold runof; repeat (split; [solve [auto]|]).
  all: rewrite ?app_nil_r, ?app_assoc; cbn [append group Nat.eqb].
  - right. exists x28, ".", x33. unfold runof.
    destruct x33; [congruence|]. auto 10.
  - right. exists x28, "", x33. unfold runof.
    destruct x33; [congruence|]. auto 10.
  - right. exists x28, ".", "". unfold runof. auto 10.
  - right. exists x28, "", "". unfold runof. rewrite app_nil_r. auto 10.
  - left. auto.
Qed.

Lemma version_sem_text u after g :
  sem version_re 0 u after [] g -> version_text u /\ at_end after = true.
Proof.
  intros H. apply version_sem_inv in H as (ma & mi & pa & o & -> & Ha & Hi & Hp & _ & _ & _ & He & Ho).
  split; [|assumption]. exists ma, mi, pa, o.
  repeat (split; [first [reflexivity|assumption]|]).
  unfold pre_text. destruct Ho as [(-> & _)|(id & dot & num & -> & ? & ? & ? & _)]; [now left|].
  right. exists id, dot, num. auto.
Qed.

Lemma version_text_sem t :
  version_text t -> exists g, sem version_re 0 t "" [] g.
Proof.
  intros (ma & mi & pa & o & -> & Ha & Hi & Hp & Ho).
  assert (Hsfx : forall i g, exists g',
    sem (Opt (Chr "-" ;; Grp 4 (Plus is_letter) ;; Opt (Chr ".") ;;
              Opt (Grp 5 (Plus is_digit))) ;; Eos) i o "" g g').
  { intros i g.
    destruct Ho as [->|(id & dot & num & -> & Hl & Hdot & Hnum)].
    - exists g. eapply (sem_seq_intro _ _ _ "" ""); simpl; eauto.
    - destruct (sem_opt_grp_plus 5 is_digit
                  (i + 1 + String.length id + String.length dot) num ""
                  ((4, id) :: g) Hnum) as [g' Hg'].
      exists g'. rewrite <- (app_nil_r ("-" ++ id ++ dot ++ num)).
      eapply sem_seq_intro; [|simpl; eauto].
      left. eapply (sem_seq_intro _ _ _ "-"); [apply sem_chr|].
      eapply sem_seq_intro; [apply sem_grp, sem_plus, Hl|].
      eapply sem_seq_intro; [apply sem_opt_chr, Hdot|].
      rewrite app_nil_r. exact Hg'. }
  destruct (Hsfx (0 + 0 + String.length ma + 1 + String.length mi + 1
                  + String.length pa)
                 [(3, pa); (2, mi); (1, ma)]) as [g' Hg'].
  exists g'. unfold version_re.
  eapply (sem_seq_intro _ _ _ ""); [simpl; eauto|].
  eapply sem_seq_intro; [apply sem_grp, sem_plus, Ha|].
  eapply (sem_seq_intro _ _ _ "."); [apply sem_chr|].
  eapply sem_seq_intro; [apply sem_grp, sem_plus, Hi|].
  eapply (sem_seq_intro _ _ _ "."); [apply sem_chr|].
  eapply sem_seq_intro; [apply sem_grp, sem_plus, Hp|].
  exact Hg'.
Qed.

Lemma accepted_sem_text s g :
  sem accepted_version_grammar 0 s "" [] g ->
  exists pre t, s = pre ++ t /\ (pre = "" \/ pre = "v") /\ version_text t.
Proof.
  intros H. cbn [sem accepted_version_grammar Chr] in H.
  break.
  all: repeat match goal with
         | H : Ascii.eqb _ _ = true |- _ => apply Ascii.eqb_eq in H; subst
         end.
  all: rewrite ?app_nil_r, ?app_assoc; cbn [append].
  all: match goal with
       | |- exists pre t, String "v" ?x = _ /\ _ =>
           exists "v", x; split; [reflexivity|]; split; [now right|]
       | |- exists pre t, ?x = _ /\ _ =>
           exists "", x; split; [reflexivity|]; split; [now left|]
       end.
  all: unfold version_text, pre_text, runof.
  all: try (eexists _, _, _, (String "-" _); split; [reflexivity|];
            repeat (split; [solve [auto]|]); right).
  all: try (eexists _, _, _, ""; rewrite app_nil_r; split; [reflexivity|];
            repeat (split; [solve [auto]|]); now left).
  all: match goal with
       | |- exists id dot num, String "-" (?a ++ String "." ?b) = _ /\ _ =>
           exists a, ".", b
       | |- exists id dot num, String "-" (?a ++ ".") = _ /\ _ =>
           exists a, ".", ""
       | |- exists id dot num, String "-" (?a ++ ?b) = _ /\ _ =>
           exists a, "", b
       | |- exists id dot num, String "-" ?a = _ /\ _ =>
           exists a, "", ""; rewrite ?app_nil_r
       end; cbn [append]; auto 10.
Qed.

Lemma text_accepted pre t :
  pre = "" \/ pre = "v" -> version_text t ->
  exists g, sem accepted_version_grammar 0 (pre ++ t) "" [] g.
Proof.
  intros Hpre (ma & mi & pa & o & -> & Ha & Hi & Hp & Ho).
  exists []. unfold accepted_version_grammar.
  eapply sem_seq_intro; [apply sem_opt_chr, Hpre|].
  eapply sem_seq_intro; [apply sem_plus, Ha|].
  eapply (sem_seq_intro _ _ _ "."); [apply sem_chr|].
  eapply sem_seq_intro; [apply sem_plus, Hi|].
  eapply (sem_seq_intro _ _ _ "."); [apply sem_chr|].
  eapply sem_seq_intro; [apply sem_plus, Hp|].
  destruct Ho as [->|(id & dot & num & -> & Hl & Hdot & Hnum)].
  - now right.
  - left. eapply (sem_seq_intro _ _ _ "-"); [apply sem_chr|].
    eapply sem_seq_intro; [apply sem_plus, Hl|].
    eapply sem_seq_intro; [apply sem_opt_chr, Hdot|].
    now apply sem_opt_plus.
Qed.

Lemma digit_not_v c : is_digit c = true -> Ascii.eqb c "v" = false.
Proof.
  intros H. destruct c as [[] [] [] [] [] [] [] []];
    try (vm_compute in H; discriminate H); reflexivity.
Qed.

Lemma lstrip_digit t : starts is_digit t = true -> lstrip "v" t = t.
Proof.
  destruct t as [|c t]; simpl; [reflexivity|].
  intros H. now rewrite (digit_not_v c H).
Qed.

Lemma runof_starts p u v : runof p u -> starts p (u ++ v) = true.
Proof.
  intros [Hn H]. destruct u as [|c u]; [now destruct Hn|].
  simpl in *. now apply andb_true_iff in H as [H _].
Qed.

Lemma version_text_starts t : version_text t -> starts is_digit t = true.
Proof. intros (ma & mi & pa & o & -> & Ha & _). now apply runof_starts. Qed.

Lemma lstrip_once s :
  startswith s "vv" = false ->
  s = lstrip "v" s \/ s = "v" ++ lstrip "v" s.
Proof.
  destruct s as [|c s]; [now left|].
  cbn [startswith lstrip]. rewrite (Ascii.eqb_sym c "v").
  destruct (Ascii.eqb_spec "v" c) as [<-|Hc]; [|now left].
  intros H. right. destruct s as [|d s]; [reflexivity|].
  cbn [startswith lstrip andb] in *. rewrite andb_true_r in H.
  rewrite (Ascii.eqb_sym d "v"). now rewrite H.
Qed.

Lemma all_lstrip p c s : all p s = true -> all p (lstrip c s) = true.
Proof.
  induction s as [|a s IH]; simpl; [reflexivity|].
  intros H. apply andb_true_iff in H as [Ha Hs].
  destruct (Ascii.eqb a c); [auto|]. simpl. now rewrite Ha, Hs.
Qed.

Lemma at_end_single_line after :
  at_end after = true -> all is_dot after = true -> after = "".
Proof.
  destruct after as [|c t]; simpl; [reflexivity|].
  unfold is_dot. destruct (Ascii.eqb c newline); simpl; discriminate.
Qed.

Lemma parse_version_succeeds_iff s :
  succeeded (parse_version s) = true <->
  exists g, re_match version_re (lstrip "v" s) = Some g.
Proof.
  unfold parse_version.
  destruct (re_match version_re (lstrip "v" s)); simpl; split; eauto.
  - discriminate.
  - intros [g [=]].
Qed.

(** *** Which strings parse *)

Lemma version_groups_bound s g :
  re_match version_re s = Some g ->
  exists ma mi pa,
    group 1 g = Some ma /\ group 2 g = Some mi /\ group 3 g = Some pa.
Proof.
  intros E. apply re_match_some in E as (u & after & _ & Hsem).
  apply version_sem_inv in Hsem
    as (ma & mi & pa & o & _ & _ & _ & _ & H1 & H2 & H3 & _).
  exists ma, mi, pa. auto.
Qed.

(** C1, as stated, fails.  In ["1.2.3-rc1"] the number follows the
    identifier without a dot, so the string is not a word of
    [[v]MAJOR.MINOR.PATCH[-IDENT[.NUM]]]; [parse_version] accepts it,
    because the pattern makes the dot and the number optional one by
    one. *)
Lemma claimed_version_grammar_counterexample :
  matches_exactly claimed_version_grammar "1.2.3-rc1" = false
  /\ parse_version "1.2.3-rc1" = Ok (1, 2, 3, Some "rc", Some 1)%N.
Proof. split; vm_compute; reflexivity. Qed.

(** Two behaviours the statement below leaves out: [lstrip] removes
    every leading [v], and [$] tolerates one final newline. *)
Example parse_version_strips_every_v :
  parse_version "vv1.2.3" = Ok (1, 2, 3, None, None)%N.
Proof. vm_compute. reflexivity. Qed.

Example parse_version_final_newline :
  parse_version (String.append "1.2.3" (String newline ""))
  = Ok (1, 2, 3, None, None)%N.
Proof. vm_compute. reflexivity. Qed.

(** C1, amended.  For every single-line string with at most one leading
    [v], [parse_version] succeeds exactly when the string is a word of
    [[v]MAJOR.MINOR.PATCH[-IDENT[.][NUM]]]: an optional [v], three
    dot-separated runs of digits, and an optional suffix made of a dash,
    one or more letters [a-z], [A-Z], an optional dot and an optional
    run of digits, a digit being a character of the class [\d] of the
    pattern ([is_digit]: among the code points below 256 that is [0-9]).
    When it does not succeed it fails with [InvalidVersion], carrying
    the text without its leading [v]. *)
Theorem parse_version_accepts (s : string) :
  startswith s "vv" = false -> all is_dot s = true ->
  succeeded (parse_version s) = matches_exactly accepted_version_grammar s
  /\ (succeeded (parse_version s) = false ->
      parse_version s = InvalidVersion (lstrip "v" s)).
Proof.
  intros Hvv Hline. split.
  - apply eq_true_iff_eq. rewrite parse_version_succeeds_iff, matches_exactly_iff.
    split.
    + intros [g Hg]. apply re_match_some in Hg as (u & after & E & Hsem).
      apply version_sem_text in Hsem as [Ht He].
      assert (after = "") as ->.
      { apply at_end_single_line; [assumption|].
        apply (all_lstrip is_dot "v") in Hline. rewrite E, all_app in Hline.
        now apply andb_true_iff in Hline as [_ Hline]. }
      rewrite app_nil_r in E. subst u.
      destruct (lstrip_once s Hvv) as [E|E]; rewrite E.
      * apply (text_accepted ""); auto.
      * apply (text_accepted "v"); auto.
    + intros [g Hg]. apply accepted_sem_text in Hg as (pre & t & -> & Hpre & Ht).
      assert (lstrip "v" (pre ++ t) = t) as E.
      { destruct Hpre as [-> | ->]; simpl;
          apply lstrip_digit, version_text_starts, Ht. }
      rewrite E. apply version_text_sem in Ht as [g' Hg'].
      destruct (re_match version_re t) as [g0|] eqn:Em; [eauto|].
      exfalso. apply (re_match_none _ _ Em t "" g'); [|assumption].
      now rewrite app_nil_r.
  - unfold parse_version.
    destruct (re_match version_re (lstrip "v" s)); simpl; [discriminate|reflexivity].
Qed.

Lemma parse_version_accepts_witness :
  succeeded (parse_version "v1.2.3-rc1")
  = matches_exactly accepted_version_grammar "v1.2.3-rc1"
  /\ succeeded (parse_version "1.2") = false
  /\ parse_version "1.2" = InvalidVersion "1.2".
Proof.
  split; [exact (proj1 (parse_version_accepts "v1.2.3-rc1" eq_refl eq_refl))|].
  split; [reflexivity|].
  exact (proj2 (parse_version_accepts "1.2" eq_refl eq_refl) eq_refl).
Defined.

(** *** Formatting, and parsing what was formatted *)

Lemma format_version_text ma mi pa pt pn prefix :
  format_version ma mi pa pt pn prefix
  = prefix ++ str ma ++ "." ++ str mi ++ "." ++ str pa ++ suffix_text pt pn.
Proof.
  unfold format_version, suffix_text.
  destruct pt as [[|c t]|]; [| destruct pn |]; cbn [append];
    rewrite ?app_assoc; cbn [append]; rewrite ?app_assoc, ?app_nil_r;
    reflexivity.
Qed.

Lemma str_runof n : runof is_digit (str n).
Proof. split; [apply str_nonempty|apply str_digits]. Qed.

Lemma parse_format (ma mi pa : N) (pt : option string) (pn : option N)
    (prefix : string) :
  prefix = "" \/ prefix = "v" ->
  match pt with Some id => runof is_letter id | None => pn = None end ->
  parse_version (format_version ma mi pa pt pn prefix)
  = Ok (ma, mi, pa, pt, pn)
  /\ prefix_of (format_version ma mi pa pt pn prefix) = prefix.
Proof.
  intros Hpre Hpt. unfold prefix_of. rewrite format_version_text.
  pose proof (str_runof ma) as [Hna Ha].
  pose proof (str_runof mi) as [Hni Hi].
  pose proof (str_runof pa) as [Hnp Hp].
  split.
  - unfold parse_version.
    assert (lstrip "v" (prefix ++ str ma ++ "." ++ str mi ++ "." ++ str pa
                        ++ suffix_text pt pn)
            = str ma ++ "." ++ str mi ++ "." ++ str pa ++ suffix_text pt pn)
      as ->.
    { destruct Hpre as [-> | ->]; simpl;
        apply lstrip_digit, str_starts_digit. }
    destruct pt as [id|].
    + destruct Hpt as [Hnl Hl].
      destruct id as [|c t]; [now destruct Hnl|].
      destruct pn as [n|]; cbn [suffix_text].
      * pose proof (str_runof n) as [Hnn Hn].
        rewrite version_match_id_num; auto.
        unfold required. cbn [group Nat.eqb truthy].
        destruct (str n) eqn:E; [now destruct Hnn|]. rewrite <- E.
        now rewrite !int_str.
      * rewrite app_nil_r, version_match_id; auto.
        unfold required. cbn [group Nat.eqb truthy]. now rewrite !int_str.
    + subst pn. cbn [suffix_text]. rewrite app_nil_r, version_match_plain; auto.
      unfold required. cbn [group Nat.eqb truthy]. now rewrite !int_str.
  - destruct Hpre as [-> | ->]; [|reflexivity].
    cbn [append]. pose proof (str_starts_digit ma
      ("." ++ str mi ++ "." ++ str pa ++ suffix_text pt pn)) as H.
    destruct (str ma ++ _) as [|c t]; [reflexivity|].
    cbn [startswith starts] in *.
    now rewrite (Ascii.eqb_sym "v" c), (digit_not_v c H).
Qed.

(** *** Bumping *)

Example bump_examples :
  bump_version "v1.2.3" MAJOR "alpha" = Ok "v2.0.0"
  /\ bump_version "1.2.3" MINOR "alpha" = Ok "1.3.0"
  /\ bump_version "v1.2.3" PREMINOR "rc" = Ok "v1.3.0-rc.0"
  /\ bump_version "1.2" PATCH "alpha" = InvalidVersion "1.2".
Proof. repeat split; vm_compute; reflexivity. Qed.

(** C5.  For every version [v] (components [major], [minor], [patch];
    no prerelease, or a non-empty all-letter identifier with an optional
    number; prefix [""] or ["v"]), parsing the formatted string of [v]
    gives [v] back. *)
Theorem parse_format_roundtrip (v : SemanticVersion) :
  valid v -> parse (format v) = Ok v.
Proof.
  destruct v as [ma mi pa pre pfx]. intros [Hpfx Hpre]. simpl in Hpfx, Hpre.
  unfold parse, format. cbn [major minor patch prerelease prefix].
  destruct (parse_format ma mi pa
              (pre_type_of (Version ma mi pa pre pfx))
              (pre_num_of (Version ma mi pa pre pfx)) pfx Hpfx) as [Hp Hx].
  - destruct pre as [[id n]|]; [exact Hpre|reflexivity].
  - rewrite Hp, Hx. f_equal. f_equal.
    destruct pre as [[id n]|]; reflexivity.
Qed.

Lemma parse_format_roundtrip_witness :
  valid (Version 1 2 3 (Some ("rc", Some 4%N)) "v")
  /\ format (Version 1 2 3 (Some ("rc", Some 4%N)) "v") = "v1.2.3-rc.4"
  /\ parse "v1.2.3-rc.4" = Ok (Version 1 2 3 (Some ("rc", Some 4%N)) "v").
Proof.
  assert (H : valid (Version 1 2 3 (Some ("rc", Some 4%N)) "v")).
  { split; [right; reflexivity|]. split; [discriminate|reflexivity]. }
  split; [exact H|]. split; [reflexivity|].
  exact (parse_format_roundtrip _ H).
Defined.

Lemma prefix_of_cases current : prefix_of current = "" \/ prefix_of current = "v".
Proof. unfold prefix_of. destruct (startswith current "v"); auto. Qed.

Lemma parse_version_inv s ma mi pa pt pn :
  parse_version s = Ok (ma, mi, pa, pt, pn) ->
  match pt with Some id => runof is_letter id | None => pn = None end.
Proof.
  unfold parse_version.
  destruct (re_match version_re (lstrip "v" s)) as [g|] eqn:E; [|discriminate].
  intros [= _ _ _ <- <-].
  apply re_match_some in E as (u & after & _ & Hsem).
  apply version_sem_inv in Hsem
    as (ma' & mi' & pa' & o & _ & _ & _ & _ & _ & _ & _ & _ & Ho).
  destruct Ho as [(_ & -> & ->)|(id & dot & num & _ & Hid & _ & _ & -> & _)];
    [reflexivity|assumption].
Qed.

Lemma truthy_runof p id : runof p id -> truthy (Some id) = true.
Proof. intros [Hn _]. destruct id; [now destruct Hn|reflexivity]. Qed.

(** C4.  For every version string that parses, a [patch] bump of a
    version with a prerelease gives [(major, minor, patch)] with no
    prerelease and nothing incremented; a [patch] bump of a version
    without a prerelease gives [(major, minor, patch + 1)] with no
    prerelease. *)
Theorem bump_patch_graduates (current preid : string) (ma mi pa : N)
    (pt : option string) (pn : option N) :
  parse_version current = Ok (ma, mi, pa, pt, pn) ->
  let target := match pt with Some _ => pa | None => (pa + 1)%N end in
  let next := format_version ma mi target None None (prefix_of current) in
  bump_version current PATCH preid = Ok next
  /\ parse_version next = Ok (ma, mi, target, None, None).
Proof.
  intros Hparse target next. split.
  - unfold bump_version. rewrite Hparse.
    apply parse_version_inv in Hparse.
    destruct pt as [id|]; [rewrite (truthy_runof _ _ Hparse)|]; reflexivity.
  - apply parse_format; [apply prefix_of_cases|reflexivity].
Qed.

Lemma bump_patch_graduates_witness :
  bump_version "v1.2.3-rc.1" PATCH "alpha" = Ok "v1.2.3"
  /\ bump_version "1.2.3" PATCH "alpha" = Ok "1.2.4".
Proof.
  split.
  - exact (proj1 (bump_patch_graduates "v1.2.3-rc.1" "alpha" 1%N 2%N 3%N
                    (Some "rc") (Some 1%N) eq_refl)).
  - exact (proj1 (bump_patch_graduates "1.2.3" "alpha" 1%N 2%N 3%N None None
                    eq_refl)).
Defined.

(** C7.  From the release [1.2.3] the [prerelease] policy with the
    identifier ["alpha"] gives [1.2.4-alpha.0], and from that
    [1.2.4-alpha.1]; and for every version string that parses with a
    prerelease, the policy keeps [(major, minor, patch)] and the
    identifier, and the new number is the old one plus one, a missing
    number counting as 0. *)
Theorem bump_prerelease_steps :
  (bump_version "1.2.3" PRERELEASE "alpha" = Ok "1.2.4-alpha.0"
   /\ bump_version "1.2.4-alpha.0" PRERELEASE "alpha" = Ok "1.2.4-alpha.1")
  /\ forall (current preid : string) (ma mi pa : N) (id : string)
            (pn : option N),
       parse_version current = Ok (ma, mi, pa, Some id, pn) ->
       let number := (match pn with Some n => n | None => 0 end + 1)%N in
       let next :=
         format_version ma mi pa (Some id) (Some number) (prefix_of current) in
       bump_version current PRERELEASE preid = Ok next
       /\ parse_version next = Ok (ma, mi, pa, Some id, Some number).
Proof.
  split; [split; vm_compute; reflexivity|].
  intros current preid ma mi pa id pn Hparse number next. split.
  - unfold bump_version. rewrite Hparse.
    apply parse_version_inv in Hparse.
    rewrite (truthy_runof _ _ Hparse). reflexivity.
  - apply parse_format; [apply prefix_of_cases|].
    exact (parse_version_inv _ _ _ _ _ _ Hparse).
Qed.

Lemma bump_prerelease_steps_witness :
  bump_version "v2.0.0-beta" PRERELEASE "alpha" = Ok "v2.0.0-beta.1".
Proof.
  exact (proj1 (proj2 bump_prerelease_steps "v2.0.0-beta" "alpha" 2%N 0%N 0%N
                  "beta" None eq_refl)).
Defined.

(** C9.  When the current version has a prerelease, the [prerelease]
    policy keeps its identifier whatever identifier is supplied:
    [1.2.3-beta.1] with ["alpha"] supplied becomes [1.2.3-beta.2].  The
    supplied identifier is used when the current version has none. *)
Theorem bump_prerelease_keeps_identifier :
  bump_version "1.2.3-beta.1" PRERELEASE "alpha" = Ok "1.2.3-beta.2"
  /\ (forall (current preid preid' : string) (ma mi pa : N) (id : string)
             (pn : option N),
        parse_version current = Ok (ma, mi, pa, Some id, pn) ->
        exists next n,
          bump_version current PRERELEASE preid = Ok next
          /\ bump_version current PRERELEASE preid' = Ok next
          /\ parse_version next = Ok (ma, mi, pa, Some id, Some n))
  /\ (forall (current preid : string) (ma mi pa : N) (pn : option N),
        parse_version current = Ok (ma, mi, pa, None, pn) ->
        bump_version current PRERELEASE preid
        = Ok (format_version ma mi (pa + 1) (Some preid) (Some 0%N)
                             (prefix_of current))).
Proof.
  split; [vm_compute; reflexivity|]. split.
  - intros current preid preid' ma mi pa id pn Hparse.
    pose proof (parse_version_inv _ _ _ _ _ _ Hparse) as Hid.
    eexists _, _. unfold bump_version. rewrite Hparse.
    rewrite (truthy_runof _ _ Hid).
    split; [reflexivity|]. split; [reflexivity|].
    apply parse_format; [apply prefix_of_cases|exact Hid].
  - intros current preid ma mi pa pn Hparse.
    unfold bump_version. rewrite Hparse. reflexivity.
Qed.

Lemma bump_prerelease_keeps_identifier_witness :
  exists next,
    bump_version "v0.9.0-rc.7" PRERELEASE "alpha" = Ok next
    /\ bump_version "v0.9.0-rc.7" PRERELEASE "beta" = Ok next
    /\ exists n, parse_version next = Ok (0, 9, 0, Some "rc", Some n)%N.
Proof.
  destruct (proj1 (proj2 bump_prerelease_keeps_identifier)
              "v0.9.0-rc.7" "alpha" "beta" 0%N 9%N 0%N "rc" (Some 7%N) eq_refl)
    as (next & n & H1 & H2 & H3).
  exists next. split; [exact H1|]. split; [exact H2|]. exists n. exact H3.
Defined.

(** *** Suggesting a bump *)

Lemma analyze_step_eq flags c :
  analyze_step flags c
  = (breaking_test c || fst flags, feature_test c || snd flags).
Proof.
  unfold analyze_step, breaking_test, feature_test.
  destruct (contains "!" _ || contains "breaking" _),
           (startswith _ "feat"); reflexivity.
Qed.

Lemma analyze_fold commits : forall b f,
  fold_left analyze_step commits (b, f)
  = (b || existsb breaking_test commits, f || existsb feature_test commits).
Proof.
  induction commits as [|c cs IH]; intros b f; cbn [fold_left existsb].
  - now rewrite !orb_false_r.
  - rewrite analyze_step_eq, IH. cbn [fst snd].
    destruct (breaking_test c), (feature_test c), b, f; reflexivity.
Qed.

Lemma breaking_test_iff c :
  breaking_test c = true <-> marks_breaking (lower (subject c)).
Proof.
  unfold breaking_test, marks_breaking.
  now rewrite orb_true_iff, bang_in_header_iff, contains_iff.
Qed.

Lemma feature_test_iff c :
  feature_test c = true <-> marks_feature (lower (subject c)).
Proof. apply startswith_iff. Qed.

(** C2, as stated, fails.  The type of ["features: cleanup"] is
    "features", not "feat", and the subject has no ['!'] and no
    "breaking": the rule as worded gives [patch], the code gives
    [minor].  And ["fix typo!"] has no colon for the ['!'] to stand
    before: the rule as worded gives [patch], the code gives [major]. *)
Lemma claimed_suggest_counterexample :
  (analyze_commits [Commit "a1b2c3d4" "features: cleanup"] = MINOR
   /\ claimed_suggest [Commit "a1b2c3d4" "features: cleanup"] = PATCH)
  /\ (analyze_commits [Commit "e5f6a7b8" "fix typo!"] = MAJOR
      /\ claimed_suggest [Commit "e5f6a7b8" "fix typo!"] = PATCH).
Proof. repeat split; vm_compute; reflexivity. Qed.

(** C2, amended.  With every subject lower-cased first:
    [analyze_commits] returns [major] if and only if some subject has a
    ['!'] with no colon before it (anywhere, when the subject has no
    colon) or contains "breaking"; otherwise it returns [minor] if and
    only if some subject starts with the four letters "feat"; otherwise
    it returns [patch]. *)
Theorem analyze_commits_heuristic (commits : list commit) :
  let breaking := exists c, In c commits /\ marks_breaking (lower (subject c)) in
  let feature := exists c, In c commits /\ marks_feature (lower (subject c)) in
  (analyze_commits commits = MAJOR <-> breaking)
  /\ (analyze_commits commits = MINOR <-> ~ breaking /\ feature)
  /\ (analyze_commits commits = PATCH <-> ~ breaking /\ ~ feature).
Proof.
  intros breaking feature.
  assert (Hb : existsb breaking_test commits = true <-> breaking)
    by apply existsb_iff, breaking_test_iff.
  assert (Hf : existsb feature_test commits = true <-> feature)
    by apply existsb_iff, feature_test_iff.
  unfold analyze_commits. rewrite analyze_fold. simpl.
  destruct (existsb breaking_test commits), (existsb feature_test commits);
    cbn [orb]; intuition (discriminate || auto).
Qed.

End ReleaseFacts.

(* ===================================================================== *)
(** ** Facts about git-changelog.py *)
(* ===================================================================== *)

Module ChangelogFacts.
Import Text Regex Grammar TextFacts RegexFacts Changelog.

(** *** Examples *)

Example parse_commit_scoped_breaking :
  parse_commit "feat(api)!: add endpoint"
  = ("feat", "api", "add endpoint", true).
Proof. vm_compute. reflexivity. Qed.

Example parse_commit_no_colon :
  parse_commit "update readme" = ("other", "", "update readme", false).
Proof. vm_compute. reflexivity. Qed.

Example parse_commit_unknown_type :
  parse_commit "WIP: half done" = ("wip", "", "half done", false)
  /\ bucket_key (classify (Commit "0a0a0a0a" "2024-01-01" "dev"
                                   "WIP: half done")) = "other".
Proof. split; vm_compute; reflexivity. Qed.

Example parse_commit_blank_message :
  parse_commit "feat:   " = ("feat", "", " ", false).
Proof. vm_compute. reflexivity. Qed.

(** *** Evaluating the subject pattern along a header *)

Lemma colon_stage i ws tail g :
  all is_space ws = true ->
  run colon_re (MState i (ws ++ String ":" tail) g)
  = run message_re (MState (S (i + String.length ws)) tail g).
Proof.
  intros Hws. unfold colon_re.
  rewrite run_star_seq by side. now rewrite run_chr_seq.
Qed.

Lemma bang_stage i bang ws tail g :
  all is_space ws = true ->
  exists j,
    run bang_re (MState i (bang_text bang ++ ws ++ String ":" tail) g)
    = run message_re
        (MState j tail ((if bang then [(3, "!")] else []) ++ g)%list).
Proof.
  intros Hws. unfold bang_re.
  destruct bang; cbn [bang_text append]; eexists; rewrite run_opt_seq.
  - rewrite run_grp_chr_seq.
    rewrite colon_stage by assumption.
    apply List.app_nil_r.
  - rewrite run_grp_chr_none.
    + rewrite colon_stage by assumption. reflexivity.
    + apply starts_after_space; [assumption|apply space_not_bang|reflexivity].
Qed.

Lemma after_scope_starts (q : ascii -> bool) bang ws x :
  all is_space ws = true ->
  (forall c, is_space c = true -> q c = false) ->
  q "!"%char = false -> q ":"%char = false ->
  starts q (bang_text bang ++ ws ++ String ":" x) = false.
Proof.
  intros Hws Hq Hb Hc. destruct bang; [exact Hb|]. cbn [bang_text append].
  apply starts_after_space; [assumption|assumption|exact Hc].
Qed.

Lemma bang_re_lparen i r g : run bang_re (MState i (String "(" r) g) = [].
Proof. reflexivity. Qed.

Lemma scope_stage i sc bang ws tail g :
  match sc with Some x => runof not_rparen x | None => True end ->
  all is_space ws = true ->
  exists j,
    run scope_re
      (MState i (scope_text sc ++ bang_text bang ++ ws ++ String ":" tail) g)
    = run message_re
        (MState j tail
           ((if bang then [(3, "!")] else [])
            ++ match sc with Some x => [(2, x)] | None => [] end ++ g)%list).
Proof.
  intros Hsc Hws. unfold scope_re.
  destruct sc as [x|]; cbn [scope_text append].
  - destruct Hsc as [Hnx Hx].
    destruct (bang_stage (S (S i + String.length x)) bang ws tail ((2, x) :: g) Hws)
      as [j Hj].
    exists j. rewrite run_opt_seq, !run_seq_assoc, run_chr_seq.
    rewrite app_assoc, !run_seq_assoc. cbn [append].
    rewrite run_grp_plus_seq by side. rewrite run_chr_seq.
    rewrite Hj, bang_re_lparen. apply List.app_nil_r.
  - destruct (bang_stage i bang ws tail g Hws) as [j Hj].
    exists j. rewrite run_opt_seq, !run_seq_assoc.
    rewrite run_chr_none; [exact Hj|].
    apply after_scope_starts; auto using space_not_lparen.
Qed.

Lemma header_app ty sc bang ws tail :
  header ty sc bang ws ++ tail
  = ty ++ scope_text sc ++ bang_text bang ++ ws ++ String ":" tail.
Proof. unfold header. now rewrite !app_assoc. Qed.

Lemma commit_run_header ty sc bang ws tail :
  header_ok ty sc ws ->
  exists j,
    run commit_re (MState 0 (header ty sc bang ws ++ tail) [])
    = run message_re (MState j tail (header_groups ty sc bang)).
Proof.
  intros ([Hnt Hty] & Hsc & Hws). rewrite header_app.
  destruct (scope_stage (String.length ty) sc bang ws tail [(1, ty)] Hsc Hws)
    as [j Hj].
  exists j.
  change commit_re with (Bos ;; Grp 1 (Plus is_word) ;; scope_re)%re.
  rewrite run_bos_seq, run_grp_plus_seq; [exact Hj| |assumption..|].
  - unfold scope_re, bang_re, colon_re. reject_by_cases.
  - destruct sc; [reflexivity|].
    apply after_scope_starts; auto using space_not_word.
Qed.

Lemma message_stage tail :
  all is_dot tail = true -> tail <> "" ->
  forall i g,
    head_groups (run message_re (MState i tail g))
    = Some ((4, message_of tail) :: g).
Proof.
  induction tail as [|c t IH]; intros Hdot Hne i g; [now destruct Hne|].
  assert (Hwhole :
    run (Grp 4 (Plus is_dot) ;; Eos) (MState i (String c t) g)
    = [MState (i + String.length (String c t)) "" ((4, String c t) :: g)]).
  { rewrite run_grp_plus_end by side. reflexivity. }
  unfold message_re in *. cbn [message_of].
  destruct (is_space c) eqn:Hc.
  - rewrite run_star_cons_seq by assumption.
    destruct t as [|d t].
    + rewrite Hwhole. reflexivity.
    + apply head_groups_app.
      simpl in Hdot. apply andb_true_iff in Hdot as [_ Hdot].
      apply (IH Hdot); discriminate.
  - rewrite run_star_stop_seq by assumption. rewrite Hwhole. reflexivity.
Qed.

Lemma commit_sem_inv u after g :
  sem commit_re 0 u after [] g ->
  exists ty sc bang ws tail,
    u ++ after = header ty sc bang ws ++ tail
    /\ header_ok ty sc ws /\ tail <> ""
    /\ group 1 g = Some ty /\ exists msg, group 4 g = Some msg.
Proof.
  intros H. cbn [sem commit_re message_re Chr] in H.
  break. all: chars.
  all: match goal with
       | Hty : all is_word ?ty = true, Hws : all is_space ?ws = true,
         Hw2 : all is_space ?w2 = true, Hm : all is_dot ?m = true |- _ =>
           match goal with
           | Hsc : all not_rparen ?x = true |- _ =>
               match goal with
               | |- context [(3, _)] =>
                   exists ty, (Some x), true, ws, (w2 ++ m ++ after)
               | _ => exists ty, (Some x), false, ws, (w2 ++ m ++ after)
               end
           | _ =>
               match goal with
               | |- context [(3, _)] =>
                   exists ty, None, true, ws, (w2 ++ m ++ after)
               | _ => exists ty, None, false, ws, (w2 ++ m ++ after)
               end
           end
       end.
  all: unfold header, header_ok, runof; cbn [scope_text bang_text append group Nat.eqb].
  all: repeat first [rewrite app_assoc | rewrite app_nil_r | progress cbn [append]].
  all: repeat split; eauto.
  all: match goal with
       | Hm : ?m <> "" |- ?w2 ++ ?m ++ _ <> "" =>
           destruct w2; [destruct m; [congruence|discriminate]|discriminate]
       end.
Qed.

Lemma parse_commit_other s :
  re_match commit_re s = None -> parse_commit s = ("other", "", s, false).
Proof. unfold parse_commit. now intros ->. Qed.

(** C6, as stated, fails.  ["feat : x"] has a space between the type
    and the colon, so it is not a word of [type[(scope)][!]: message],
    and it is classified as [feat]; ["feat(): x"] is a word of that
    grammar, with an empty scope, and it is classified as [other]. *)
Lemma claimed_commit_grammar_counterexample :
  (matches_exactly claimed_commit_grammar "feat : x" = false
   /\ parse_commit "feat : x" = ("feat", "", "x", false))
  /\ (matches_exactly claimed_commit_grammar "feat(): x" = true
      /\ parse_commit "feat(): x" = ("other", "", "feat(): x", false)).
Proof. repeat split; vm_compute; reflexivity. Qed.

(** A message does not extend over a newline, which the statement below
    leaves out: one final newline is dropped. *)
Example parse_commit_final_newline :
  parse_commit (String.append "fix: typo" (String newline ""))
  = ("fix", "", "typo", false).
Proof. vm_compute. reflexivity. Qed.

(** C6, amended.  [parse_commit] is a total function.  A subject made
    of a type (one or more word characters), an optional scope in
    parentheses (one or more characters other than [)]), an optional
    ['!'], optional whitespace, a colon, and a non-empty single-line
    text is classified with the lower-cased type, the scope (empty when
    absent), the text after the colon without its leading whitespace
    (its last character is never stripped), and breaking exactly when
    the ['!'] is there.  A subject that has no such reading is
    classified as [("other", "", subject, false)].  Whenever the pattern
    matches, the groups of the type and of the message are bound. *)
Theorem parse_commit_classifies :
  (forall ty sc bang ws tail,
      header_ok ty sc ws -> tail <> "" -> all is_dot tail = true ->
      parse_commit (header ty sc bang ws ++ tail)
      = (lower ty, match sc with Some x => x | None => "" end,
         message_of tail, bang))
  /\ (forall s,
        ~ (exists ty sc bang ws tail,
              header_ok ty sc ws /\ tail <> ""
              /\ s = header ty sc bang ws ++ tail) ->
        parse_commit s = ("other", "", s, false))
  /\ (forall s g,
        re_match commit_re s = Some g ->
        exists ty msg, group 1 g = Some ty /\ group 4 g = Some msg).
Proof.
  split; [|split].
  - intros ty sc bang ws tail Hok Hne Hdot.
    destruct (commit_run_header ty sc bang ws tail Hok) as [j Hj].
    unfold parse_commit. rewrite re_match_head, Hj.
    rewrite (message_stage tail Hdot Hne).
    destruct Hok as (_ & Hsc & _).
    unfold required, header_groups.
    destruct bang, sc as [x|]; cbn [group Nat.eqb app]; try reflexivity;
      destruct Hsc as [Hnx _]; destruct x; (congruence || reflexivity).
  - intros s Hno. apply parse_commit_other.
    destruct (re_match commit_re s) as [g|] eqn:E; [|reflexivity].
    exfalso. apply Hno.
    apply re_match_some in E as (u & after & -> & Hsem).
    apply commit_sem_inv in Hsem
      as (ty & sc & bang & ws & tail & E & Hok & Hne & _).
    exists ty, sc, bang, ws, tail. auto.
  - intros s g E.
    apply re_match_some in E as (u & after & -> & Hsem).
    apply commit_sem_inv in Hsem
      as (ty & sc & bang & ws & tail & _ & _ & _ & H1 & msg & H4).
    eauto.
Qed.

Lemma parse_commit_classifies_witness :
  header_ok "feat" (Some "api") " "
  /\ parse_commit "feat(api)! : add endpoint"
     = ("feat", "api", "add endpoint", true).
Proof.
  assert (Hok : header_ok "feat" (Some "api") " ").
  { repeat split; discriminate. }
  split; [exact Hok|].
  refine (proj1 parse_commit_classifies "feat" (Some "api") true " "
                " add endpoint" Hok _ eq_refl).
  discriminate.
Defined.

(** C10.  A subject made of a type, an optional scope in parentheses,
    an optional ['!'] and a colon, with nothing after the colon, is
    classified as [("other", "", subject, false)]. *)
Theorem empty_message_is_other (ty : string) (sc : option string)
    (bang : bool) :
  runof is_word ty ->
  match sc with Some x => all not_rparen x = true | None => True end ->
  parse_commit (ty ++ scope_text sc ++ bang_text bang ++ ":")
  = ("other", "", ty ++ scope_text sc ++ bang_text bang ++ ":", false).
Proof.
  intros Hty Hsc. apply parse_commit_other. rewrite re_match_head.
  assert (Hrun : run commit_re
            (MState 0 (ty ++ scope_text sc ++ bang_text bang ++ ":") []) = []);
    [|now rewrite Hrun].
  destruct sc as [[|c x]|].
  - (* empty parentheses *)
    destruct Hty as [Hnt Hty]. cbn [scope_text append].
    change commit_re with (Bos ;; Grp 1 (Plus is_word) ;; scope_re)%re.
    rewrite run_bos_seq, run_grp_plus_seq;
      [| unfold scope_re, bang_re, colon_re; reject_by_cases
       | assumption.. | reflexivity].
    unfold scope_re. rewrite run_opt_seq, !run_seq_assoc, run_chr_seq.
    rewrite !run_seq_assoc, run_grp_plus_none by reflexivity.
    reflexivity.
  - assert (Hok : header_ok ty (Some (String c x)) "").
    { destruct Hty. repeat split; try assumption; discriminate. }
    destruct (commit_run_header ty (Some (String c x)) bang "" "" Hok) as [j Hj].
    rewrite header_app in Hj. cbn [append] in Hj. rewrite Hj. reflexivity.
  - assert (Hok : header_ok ty None "").
    { destruct Hty. repeat split; assumption. }
    destruct (commit_run_header ty None bang "" "" Hok) as [j Hj].
    rewrite header_app in Hj. cbn [append] in Hj. rewrite Hj. reflexivity.
Qed.

Lemma empty_message_is_other_witness :
  parse_commit "feat:" = ("other", "", "feat:", false)
  /\ parse_commit "fix(core)!:" = ("other", "", "fix(core)!:", false).
Proof.
  assert (Hfeat : runof is_word "feat") by (split; [discriminate|reflexivity]).
  assert (Hfix : runof is_word "fix") by (split; [discriminate|reflexivity]).
  split.
  - exact (empty_message_is_other "feat" None false Hfeat I).
  - exact (empty_message_is_other "fix" (Some "core") true Hfix eq_refl).
Defined.

(** *** Grouping *)

Lemma bucket_append_to k k' c g :
  bucket k (append_to k' c g)
  = if String.eqb k' k then (bucket k g ++ [c])%list else bucket k g.
Proof.
  induction g as [|[k0 l] g IH]; simpl.
  - destruct (String.eqb k' k); reflexivity.
  - destruct (String.eqb_spec k0 k') as [->|Hk0]; simpl.
    + destruct (String.eqb k' k); reflexivity.
    + destruct (String.eqb_spec k0 k) as [->|Hk].
      * destruct (String.eqb_spec k' k); [congruence|reflexivity].
      * exact IH.
Qed.

Lemma bucket_fold cs : forall g k,
  bucket k (fold_left step cs g)
  = (bucket k g ++ filter (in_bucket k) (map classify cs))%list.
Proof.
  induction cs as [|c cs IH]; intros g k; cbn [fold_left map filter].
  - now rewrite List.app_nil_r.
  - rewrite IH. unfold step. rewrite bucket_append_to.
    unfold in_bucket at 2.
    destruct (String.eqb (bucket_key (classify c)) k);
      [now rewrite <- List.app_assoc|reflexivity].
Qed.

Lemma group_commits_fold cs : group_commits cs = fold_left step cs [].
Proof. reflexivity. Qed.

Lemma bucket_group_commits cs k :
  bucket k (group_commits cs) = filter (in_bucket k) (map classify cs).
Proof. rewrite group_commits_fold. apply bucket_fold. Qed.

Lemma keys_append_to k c g :
  map fst (append_to k c g) = see (map fst g) k.
Proof.
  unfold see. induction g as [|[k0 l] g IH]; simpl; [reflexivity|].
  rewrite (String.eqb_sym k k0).
  destruct (String.eqb k0 k); simpl; [reflexivity|].
  rewrite IH. destruct (existsb (String.eqb k) (map fst g)); reflexivity.
Qed.

Lemma keys_fold cs : forall g,
  map fst (fold_left step cs g)
  = fold_left see (map bucket_key (map classify cs)) (map fst g).
Proof.
  induction cs as [|c cs IH]; intros g; cbn [fold_left map]; [reflexivity|].
  rewrite IH. unfold step. now rewrite keys_append_to.
Qed.

Lemma keys_group_commits cs :
  map fst (group_commits cs) = first_seen (map bucket_key (map classify cs)).
Proof. rewrite group_commits_fold. apply (keys_fold cs []). Qed.

Lemma see_NoDup seen k : NoDup seen -> NoDup (see seen k).
Proof.
  intros H. unfold see. destruct (existsb (String.eqb k) seen) eqn:E; [assumption|].
  apply NoDup_app; [assumption|repeat constructor; intros []|].
  intros x Hx [Hk|[]]. subst x.
  assert (existsb (String.eqb k) seen = true); [|congruence].
  apply existsb_exists. exists k. split; [assumption|apply String.eqb_refl].
Qed.

Lemma keys_NoDup cs : NoDup (map fst (group_commits cs)).
Proof.
  rewrite keys_group_commits. unfold first_seen.
  change (fun seen k =>
       if existsb (String.eqb k) seen then seen else (seen ++ [k])%list)
    with see.
  generalize (map bucket_key (map classify cs)) as ks.
  assert (forall ks seen, NoDup seen -> NoDup (fold_left see ks seen)) as H.
  { induction ks as [|k ks IH]; intros seen Hs; simpl; [assumption|].
    now apply IH, see_NoDup. }
  intros ks. apply H. constructor.
Qed.

Lemma bucket_member (g : grouped) :
  NoDup (map fst g) ->
  forall k l, In (k, l) g -> bucket k g = l.
Proof.
  induction g as [|[k0 l0] g IH]; intros Hnd k l Hin; [destruct Hin|].
  simpl in *. inversion Hnd as [|? ? Hnotin Hnd']; subst.
  destruct Hin as [[= -> ->]|Hin].
  - now rewrite String.eqb_refl.
  - destruct (String.eqb_spec k0 k) as [->|Hk]; [|now apply IH].
    exfalso. apply Hnotin. apply (in_map fst) in Hin. exact Hin.
Qed.

Lemma breaking_by_key (g : grouped) :
  NoDup (map fst g) ->
  breaking_changes g
  = flat_map (fun k => filter c_breaking (bucket k g)) (map fst g).
Proof.
  intros Hnd. unfold breaking_changes.
  assert (forall g', incl g' g ->
            flat_map (fun kv => filter c_breaking (snd kv)) g'
            = flat_map (fun k => filter c_breaking (bucket k g)) (map fst g'))
    as H.
  { induction g' as [|[k l] g' IH]; intros Hincl; simpl; [reflexivity|].
    rewrite IH by (intros x Hx; apply Hincl; now right).
    rewrite (bucket_member g Hnd k l); [reflexivity|].
    apply Hincl. now left. }
  apply H, incl_refl.
Qed.

Lemma filter_filter {A} (f h : A -> bool) l :
  filter f (filter h l) = filter (fun x => f x && h x) l.
Proof.
  induction l as [|x l IH]; simpl; [reflexivity|].
  destruct (h x); simpl; rewrite ?andb_true_r, ?andb_false_r;
    [destruct (f x)|]; now rewrite IH.
Qed.

(** C3, as stated, fails.  Of the three example commits the second
    ([fix!]) and the third ([feat!]) are breaking; the list of breaking
    changes has the third before the second, because the [feat] bucket
    was opened first. *)
Lemma breaking_list_counterexample :
  map (fun c => hash (origin c))
      (breaking_changes (group_commits example_commits))
  = ["c3c3c3c3"; "b2b2b2b2"]
  /\ map (fun c => hash (origin c))
         (filter c_breaking (map classify example_commits))
     = ["b2b2b2b2"; "c3c3c3c3"].
Proof. split; vm_compute; reflexivity. Qed.

(** C3, amended.  Each bucket holds, in input order, exactly the
    classified commits that belong to it.  The list of breaking changes
    goes bucket by bucket, the buckets in the order in which they first
    occur in the input, and within a bucket it holds the breaking
    commits in input order. *)
Theorem grouping_order (commits : list Changelog.commit) :
  let classified := map classify commits in
  (forall k,
      bucket k (group_commits commits) = filter (in_bucket k) classified)
  /\ breaking_changes (group_commits commits)
     = flat_map
         (fun k => filter (fun c => c_breaking c && in_bucket k c) classified)
         (first_seen (map bucket_key classified)).
Proof.
  intros classified. split; [intros k; apply bucket_group_commits|].
  rewrite (breaking_by_key _ (keys_NoDup commits)), keys_group_commits.
  apply flat_map_ext. intros k.
  now rewrite bucket_group_commits, filter_filter.
Qed.

(** *** Rendering *)

Lemma headings_app l1 l2 : headings (l1 ++ l2)%list = (headings l1 ++ headings l2)%list.
Proof. apply filter_app. Qed.

Lemma headings_entries {A} (f : A -> string) (l : list A) :
  (forall x, is_heading (f x) = false) -> headings (map f l) = [].
Proof.
  intros H. induction l as [|x l IH]; simpl; [reflexivity|]. now rewrite H.
Qed.

Lemma entry_not_heading c : is_heading (entry c) = false.
Proof. reflexivity. Qed.

Lemma raw_entry_not_heading c : is_heading (raw_entry c) = false.
Proof. reflexivity. Qed.

Lemma headings_section {A} title (f : A -> string) l :
  is_heading title = true -> (forall x, is_heading (f x) = false) ->
  headings (section title (map f l)) = [title].
Proof.
  intros Ht Hf. unfold section. rewrite !headings_app.
  rewrite (headings_entries f l Hf). simpl. now rewrite Ht.
Qed.

Lemma headings_type_section g e :
  headings (type_section g e)
  = if nonempty (bucket (fst e) g) then [heading_of e] else [].
Proof.
  destruct e as [k [title emoji]]. unfold type_section. simpl fst.
  destruct (bucket k g) as [|c l] eqn:E; [reflexivity|].
  rewrite (headings_section _ entry (c :: l)); [reflexivity|reflexivity|].
  apply entry_not_heading.
Qed.

Lemma headings_flat_map {A} (f : A -> list string) l :
  headings (flat_map f l) = flat_map (fun x => headings (f x)) l.
Proof.
  induction l as [|x l IH]; simpl; [reflexivity|].
  now rewrite headings_app, IH.
Qed.

Lemma headings_format version date g url :
  headings (format_markdown_lines version date g url) = expected_headings g.
Proof.
  unfold format_markdown_lines, expected_headings.
  rewrite !headings_app, headings_flat_map.
  replace (headings [_; ""]) with (@nil string)
    by (destruct url as [[|c u]|]; reflexivity).
  cbn [app]. f_equal; [|f_equal].
  - destruct (breaking_changes g) as [|c l]; [reflexivity|].
    now rewrite (headings_section "### ⚠️ BREAKING CHANGES" entry (c :: l)
                   eq_refl entry_not_heading).
  - apply flat_map_ext, headings_type_section.
  - destruct (bucket "other" g) as [|c l]; [reflexivity|].
    now rewrite (headings_section "### Other Changes" raw_entry (c :: l)
                   eq_refl raw_entry_not_heading).
Qed.

Lemma nonempty_filter {A} (f : A -> bool) l :
  nonempty (filter f l) = existsb f l.
Proof.
  induction l as [|x l IH]; simpl; [reflexivity|].
  destruct (f x); [reflexivity|exact IH].
Qed.

Lemma existsb_same_members {A} (f : A -> bool) l l' :
  (forall x, In x l <-> In x l') -> existsb f l = existsb f l'.
Proof.
  intros H. apply eq_true_iff_eq. rewrite !existsb_exists.
  split; intros (x & Hin & Hx); exists x; (split; [now apply H|assumption]).
Qed.

Lemma members_append_to k c g x :
  In x (flat_map snd (append_to k c g)) <-> x = c \/ In x (flat_map snd g).
Proof.
  induction g as [|[k0 l] g IH]; simpl.
  - intuition.
  - destruct (String.eqb k0 k); simpl; rewrite !in_app_iff; simpl.
    + intuition.
    + rewrite IH. intuition.
Qed.

Lemma members_fold cs : forall g x,
  In x (flat_map snd (fold_left step cs g))
  <-> In x (flat_map snd g) \/ In x (map classify cs).
Proof.
  induction cs as [|c cs IH]; intros g x; cbn [fold_left map In].
  - intuition.
  - rewrite IH. unfold step. rewrite members_append_to. intuition.
Qed.

Lemma breaking_filter g :
  breaking_changes g = filter c_breaking (flat_map snd g).
Proof.
  unfold breaking_changes. induction g as [|[k l] g IH]; simpl; [reflexivity|].
  now rewrite filter_app, IH.
Qed.

Lemma breaking_nonempty cs :
  nonempty (breaking_changes (group_commits cs))
  = existsb c_breaking (map classify cs).
Proof.
  rewrite breaking_filter, nonempty_filter. apply existsb_same_members.
  intros x. rewrite group_commits_fold, members_fold. simpl. intuition.
Qed.

Lemma bucket_nonempty cs k :
  nonempty (bucket k (group_commits cs))
  = existsb (in_bucket k) (map classify cs).
Proof. now rewrite bucket_group_commits, nonempty_filter. Qed.

Lemma expected_headings_perm cs cs' :
  Permutation cs cs' ->
  expected_headings (group_commits cs) = expected_headings (group_commits cs').
Proof.
  intros Hp.
  assert (Hex : forall f, existsb f (map classify cs)
                          = existsb f (map classify cs')).
  { intros f. apply existsb_same_members. intros x.
    split; apply Permutation_in, Permutation_map;
      [assumption|now apply Permutation_sym]. }
  unfold expected_headings.
  rewrite !breaking_nonempty, !bucket_nonempty, Hex, (Hex (in_bucket "other")).
  f_equal. f_equal. apply flat_map_ext. intros e.
  now rewrite !bucket_nonempty, Hex.
Qed.

Lemma known_not_other t : known t = true -> String.eqb t "other" = false.
Proof.
  unfold known, COMMIT_TYPES. cbn [existsb fst].
  rewrite !orb_true_iff, !String.eqb_eq.
  intros H. repeat destruct H as [H|H]; try (subst t; reflexivity).
  discriminate.
Qed.

Lemma other_bucket c : in_bucket "other" c = negb (known (c_type c)).
Proof.
  unfold in_bucket, bucket_key.
  destruct (known (c_type c)) eqn:E; [|reflexivity].
  now apply known_not_other.
Qed.

End ChangelogFacts.

(* ===================================================================== *)
(** ** Further facts about strings: slices, [split], [strip] *)
(* ===================================================================== *)

Module StringFacts.
Import Text Properties TextFacts.

Lemma all_cons p c (s : string) : all p (String c s) = p c && all p s.
Proof. reflexivity. Qed.


Lemma all_and (p q : ascii -> bool) (s : string) :
  all (fun c => p c && q c) s = all p s && all q s.
Proof.
  induction s; simpl; [reflexivity|]. rewrite IHs.
  destruct (p a), (q a), (all p s), (all q s); reflexivity.
Qed.

Lemma take_length (n : nat) (s : string) : String.length (take n s) <= n.
Proof.
  revert s. induction n; intros [|c t]; simpl; try lia.
  specialize (IHn t). lia.
Qed.

Lemma take_short (n : nat) (s : string) :
  String.length s <= n -> take n s = s.
Proof.
  revert s. induction n; intros [|c t]; simpl; intros H;
    try reflexivity; try lia.
  f_equal. apply IHn. lia.
Qed.

Lemma take_all p (n : nat) (s : string) :
  all p s = true -> all p (take n s) = true.
Proof.
  revert s. induction n; intros [|c t]; simpl; try reflexivity.
  intros [Ha Hs]%andb_prop. now rewrite Ha, IHn.
Qed.

Lemma take_drop (n : nat) (s : string) : take n s ++ drop n s = s.
Proof. revert s. induction n; intros [|c t]; simpl; congruence. Qed.

(** *** [split] and [join] *)

Lemma split_on_nonempty sep s : split_on sep s <> [].
Proof.
  destruct s as [|c t]; simpl; [discriminate|].
  destruct (Ascii.eqb c sep); [discriminate|].
  destruct (split_on sep t); discriminate.
Qed.

Lemma split_on_cut sep h t :
  all (no sep) h = true ->
  split_on sep (h ++ String sep t) = h :: split_on sep t.
Proof.
  induction h as [|c h IH]; simpl.
  - now rewrite Ascii.eqb_refl.
  - unfold no at 1. intros [Hc Hh]%andb_prop.
    apply negb_true_iff in Hc. rewrite Hc, (IH Hh). reflexivity.
Qed.

Lemma split_on_whole sep h :
  all (no sep) h = true -> split_on sep h = [h].
Proof.
  induction h as [|c h IH]; simpl; [reflexivity|].
  unfold no at 1. intros [Hc Hh]%andb_prop.
  apply negb_true_iff in Hc. rewrite Hc, (IH Hh). reflexivity.
Qed.

Lemma split_on_join sep (lines : list string) :
  lines <> [] ->
  Forall (fun l => all (no sep) l = true) lines ->
  split_on sep (join (String sep "") lines) = lines.
Proof.
  induction lines as [|l lines IH]; [congruence|]. intros _ H.
  inversion H as [|? ? Hl Hls]; subst.
  destruct lines as [|l' lines'].
  - simpl. now apply split_on_whole.
  - change (join (String sep "") (l :: l' :: lines'))
      with (l ++ String sep (join (String sep "") (l' :: lines'))).
    rewrite split_on_cut by assumption. f_equal. apply IH; [discriminate|].
    assumption.
Qed.

Lemma split_on_pieces sep s x :
  In x (split_on sep s) -> all (no sep) x = true.
Proof.
  revert x. induction s as [|c t IH]; simpl; intros x.
  - intros [<-|[]]. reflexivity.
  - destruct (Ascii.eqb c sep) eqn:E.
    + intros [<-|H]; [reflexivity|now apply IH].
    + destruct (split_on sep t) as [|y r].
      * intros [<-|[]]. simpl. unfold no. now rewrite E.
      * intros [<-|H].
        -- simpl. unfold no at 1. rewrite E. simpl. apply IH. now left.
        -- apply IH. now right.
Qed.

Lemma split_max_cut sep n h t :
  all (no sep) h = true ->
  split_max sep (S n) (h ++ String sep t) = h :: split_max sep n t.
Proof.
  induction h as [|c h IH]; simpl.
  - now rewrite Ascii.eqb_refl.
  - unfold no at 1. intros [Hc Hh]%andb_prop.
    apply negb_true_iff in Hc. rewrite Hc.
    change (match h ++ String sep t with
            | "" => [""]
            | String c0 t0 =>
                if Ascii.eqb c0 sep then "" :: split_max sep n t0
                else match split_max sep (S n) t0 with
                     | [] => [String c0 ""]
                     | x :: r => String c0 x :: r
                     end
            end) with (split_max sep (S n) (h ++ String sep t)).
    now rewrite (IH Hh).
Qed.

Lemma split_max_inv sep n s h x r :
  split_max sep n s = h :: x :: r ->
  all (no sep) h = true
  /\ exists n' t,
       n = S n' /\ s = h ++ String sep t /\ split_max sep n' t = x :: r.
Proof.
  revert n h x r. induction s as [|c t IH]; intros [|n] h x r;
    try discriminate.
  cbn [split_max]. destruct (Ascii.eqb c sep) eqn:E.
  - apply Ascii.eqb_eq in E. subst c. intros [= <- H].
    split; [reflexivity|]. now exists n, t.
  - destruct (split_max sep (S n) t) as [|y r'] eqn:Ht; [discriminate|].
    intros [= <- ->].
    destruct (IH _ _ _ _ Ht) as (Hy & n' & t' & [= <-] & -> & Hs).
    split; [simpl; unfold no at 1; now rewrite E|].
    now exists n, t'.
Qed.

Lemma split_max_four h d a s :
  all (no "|") h = true -> all (no "|") d = true -> all (no "|") a = true ->
  split_max "|" 3 (h ++ String "|" (d ++ String "|" (a ++ String "|" s)))
  = [h; d; a; s].
Proof.
  intros Hh Hd Ha. rewrite !split_max_cut by assumption.
  destruct s; reflexivity.
Qed.

Lemma split_max_four_inv line h d a s :
  split_max "|" 3 line = [h; d; a; s] ->
  line = h ++ String "|" (d ++ String "|" (a ++ String "|" s))
  /\ all (no "|") h = true /\ all (no "|") d = true
  /\ all (no "|") a = true.
Proof.
  intros H.
  destruct (split_max_inv _ _ _ _ _ _ H) as (Hh & n1 & t1 & [= <-] & -> & H1).
  destruct (split_max_inv _ _ _ _ _ _ H1) as (Hd & n2 & t2 & [= <-] & -> & H2).
  destruct (split_max_inv _ _ _ _ _ _ H2) as (Ha & n3 & t3 & [= <-] & -> & H3).
  destruct t3; injection H3 as <-; auto.
Qed.

(** *** [strip] and the first word *)






Lemma ends_blank_all s :
  ends is_space s = false -> all is_space s = true -> s = "".
Proof.
  unfold ends. induction s as [|c t IH]; [reflexivity|].
  cbn [last_char all]. intros H [Hc Ht]%andb_prop.
  destruct t as [|c' t']; [congruence|].
  specialize (IH H Ht). discriminate.
Qed.

Lemma rstrip_space_ends s : ends is_space (rstrip_space s) = false.
Proof.
  unfold ends. induction s as [|c t IH]; [reflexivity|].
  cbn [rstrip_space]. destruct (rstrip_space t) as [|c' r].
  - destruct (is_space c) eqn:E; simpl; [reflexivity|exact E].
  - exact IH.
Qed.

Lemma first_word_none d : first_word d = None <-> all is_space d = true.
Proof.
  unfold first_word. induction d as [|c t IH]; simpl; [tauto|].
  destruct (is_space c) eqn:E; simpl.
  - exact IH.
  - unfold not_space at 1. rewrite E. simpl.
    destruct (span not_space t). split; discriminate.
Qed.


Lemma first_word_shape d w :
  first_word d = Some w -> w <> "" /\ all not_space w = true.
Proof.
  unfold first_word.
  assert (H : all not_space (fst (span not_space (lstrip_space d))) = true).
  { generalize (lstrip_space d). intros s.
    induction s as [|c t IH]; simpl; [reflexivity|].
    destruct (not_space c) eqn:E; [|reflexivity].
    destruct (span not_space t). simpl in *. now rewrite E. }
  destruct (fst (span not_space (lstrip_space d))); [discriminate|].
  intros [= <-]. split; [discriminate|exact H].
Qed.

Lemma first_word_sub p d w :
  first_word d = Some w -> all p d = true -> all p w = true.
Proof.
  unfold first_word. intros Hw Hd.
  assert (Hl : all p (lstrip_space d) = true).
  { induction d as [|c t IH]; [reflexivity|]. simpl in *.
    apply andb_prop in Hd as [Hc Ht].
    destruct (is_space c); [now apply IH|]. simpl. now rewrite Hc, Ht. }
  assert (H : all p (fst (span not_space (lstrip_space d))) = true).
  { revert Hl. generalize (lstrip_space d). intros s.
    induction s as [|c t IH]; simpl; [reflexivity|].
    intros [Hc Ht]%andb_prop.
    destruct (not_space c); [|reflexivity].
    destruct (span not_space t). simpl in *. now rewrite Hc, IH. }
  destruct (fst (span not_space (lstrip_space d))); [discriminate|].
  now injection Hw as <-.
Qed.








End StringFacts.

(* ===================================================================== *)
(** ** git-release.py: bumps, suggestions and the command [next] *)
(* ===================================================================== *)

Module BumpFacts.
Import Text Regex Grammar Properties TextFacts RegexFacts Release ReleaseFacts.

Lemma prefix_of_format ma mi pa pt pn current :
  match pt with Some id => runof is_letter id | None => pn = None end ->
  parse_version (format_version ma mi pa pt pn (prefix_of current))
  = Ok (ma, mi, pa, pt, pn)
  /\ prefix_of (format_version ma mi pa pt pn (prefix_of current))
     = prefix_of current.
Proof. intros H. apply parse_format; [apply prefix_of_cases|exact H]. Qed.

(** X1.  For every version string that parses, a [major] bump returns a
    string that parses to [(major + 1, 0, 0)] and a [minor] bump one
    that parses to [(major, minor + 1, 0)], both without prerelease,
    whatever prerelease the current version carries. *)
Theorem bump_release_resets (current preid : string) (ma mi pa : N)
    (pt : option string) (pn : option N) :
  parse_version current = Ok (ma, mi, pa, pt, pn) ->
  (exists next,
      bump_version current MAJOR preid = Ok next
      /\ parse_version next = Ok (ma + 1, 0, 0, None, None)%N)
  /\ (exists next,
         bump_version current MINOR preid = Ok next
         /\ parse_version next = Ok (ma, mi + 1, 0, None, None)%N).
Proof.
  intros Hparse. unfold bump_version. rewrite Hparse.
  split; eexists; (split; [reflexivity|]); now apply prefix_of_format.
Qed.

Lemma bump_release_resets_witness :
  exists next,
    bump_version "v1.4.2-beta.3" MAJOR "alpha" = Ok next
    /\ parse_version next = Ok (2, 0, 0, None, None)%N.
Proof.
  exact (proj1 (bump_release_resets "v1.4.2-beta.3" "alpha" 1 4 2
                  (Some "beta") (Some 3%N) eq_refl)).
Defined.

(** X2.  For every version string that parses and every non-empty
    all-letter identifier, [premajor], [preminor] and [prepatch] return
    strings that parse to [(major + 1, 0, 0)], [(major, minor + 1, 0)]
    and [(major, minor, patch + 1)], each with that identifier and the
    number 0. *)
Theorem bump_pre_starts_at_zero (current preid : string) (ma mi pa : N)
    (pt : option string) (pn : option N) :
  parse_version current = Ok (ma, mi, pa, pt, pn) ->
  runof is_letter preid ->
  (exists next,
      bump_version current PREMAJOR preid = Ok next
      /\ parse_version next = Ok (ma + 1, 0, 0, Some preid, Some 0)%N)
  /\ (exists next,
         bump_version current PREMINOR preid = Ok next
         /\ parse_version next = Ok (ma, mi + 1, 0, Some preid, Some 0)%N)
  /\ (exists next,
         bump_version current PREPATCH preid = Ok next
         /\ parse_version next = Ok (ma, mi, pa + 1, Some preid, Some 0)%N).
Proof.
  intros Hparse Hid. unfold bump_version. rewrite Hparse.
  repeat split; eexists; (split; [reflexivity|]);
    now apply (prefix_of_format _ _ _ (Some preid) (Some 0%N)).
Qed.

Lemma bump_pre_starts_at_zero_witness :
  exists next,
    bump_version "1.4.2" PREMINOR "rc" = Ok next
    /\ parse_version next = Ok (1, 5, 0, Some "rc", Some 0)%N.
Proof.
  refine (proj1 (proj2 (bump_pre_starts_at_zero "1.4.2" "rc" 1 4 2 None None
                          eq_refl (conj _ eq_refl)))).
  discriminate.
Defined.

(** X3.  With the empty identifier the prerelease policies return
    plain releases, because [format_version] leaves out an empty
    identifier together with its number: [premajor] and [preminor]
    return what [major] and [minor] return, and from a version without
    prerelease [prepatch] and [prerelease] return what [patch]
    returns. *)
Theorem bump_empty_identifier (current preid : string) :
  bump_version current PREMAJOR "" = bump_version current MAJOR preid
  /\ bump_version current PREMINOR "" = bump_version current MINOR preid
  /\ (forall ma mi pa pn,
         parse_version current = Ok (ma, mi, pa, None, pn) ->
         bump_version current PREPATCH "" = bump_version current PATCH preid
         /\ bump_version current PRERELEASE ""
            = bump_version current PATCH preid).
Proof.
  unfold bump_version.
  destruct (parse_version current) as [[[[[ma mi] pa] pt] pn]|t].
  - split; [reflexivity|]. split; [reflexivity|].
    intros ? ? ? ? [= -> -> -> -> ->]. split; reflexivity.
  - split; [reflexivity|]. split; [reflexivity|]. discriminate.
Qed.

Lemma bump_empty_identifier_witness :
  bump_version "v1.4.2" PREPATCH "" = Ok "v1.4.3"
  /\ bump_version "v1.4.2" PRERELEASE "" = Ok "v1.4.3".
Proof.
  destruct (proj2 (proj2 (bump_empty_identifier "v1.4.2" "alpha"))
              1%N 4%N 2%N None eq_refl) as [H1 H2].
  split; [rewrite H1|rewrite H2]; reflexivity.
Defined.

(** X4.  For every version string that parses, every bump type and
    every non-empty all-letter identifier, [bump_version] returns a
    string that [parse_version] accepts, with the prefix of the current
    string: ["v"] when it starts with [v], none otherwise. *)
Theorem bump_stays_parseable (current preid : string) (b : BumpType)
    (ma mi pa : N) (pt : option string) (pn : option N) :
  parse_version current = Ok (ma, mi, pa, pt, pn) ->
  runof is_letter preid ->
  exists next v,
    bump_version current b preid = Ok next
    /\ parse_version next = Ok v
    /\ prefix_of next = prefix_of current.
Proof.
  intros Hparse Hid. pose proof (parse_version_inv _ _ _ _ _ _ Hparse) as Hpt.
  unfold bump_version. rewrite Hparse.
  destruct b; try (destruct pt as [id|];
                   [rewrite (truthy_runof _ _ Hpt)|cbn [truthy]]);
    eexists _, _; (split; [reflexivity|]);
    first [ apply (prefix_of_format _ _ _ None None); reflexivity
          | apply (prefix_of_format _ _ _ (Some preid) (Some 0%N)); exact Hid
          | apply (prefix_of_format _ _ _ (Some id) (Some _)); exact Hpt ].
Qed.

Lemma bump_stays_parseable_witness :
  exists next v,
    bump_version "v1.4.2-rc" PRERELEASE "alpha" = Ok next
    /\ parse_version next = Ok v /\ prefix_of next = "v".
Proof.
  refine (bump_stays_parseable "v1.4.2-rc" "alpha" PRERELEASE 1 4 2
            (Some "rc") None eq_refl (conj _ eq_refl)).
  discriminate.
Defined.

(** X5.  For every version string that parses, every bump type and
    every non-empty all-letter identifier, the version returned is
    never an older one: either [(major, minor, patch)] grows in the
    order by major, then minor, then patch; or it stays, the current
    version has a prerelease, and the result is its release or has the
    same identifier with a larger number (a missing number counting
    as 0). *)
Theorem bump_never_goes_back (current preid : string) (b : BumpType)
    (ma mi pa : N) (pt : option string) (pn : option N) :
  parse_version current = Ok (ma, mi, pa, pt, pn) ->
  runof is_letter preid ->
  exists next ma' mi' pa' pt' pn',
    bump_version current b preid = Ok next
    /\ parse_version next = Ok (ma', mi', pa', pt', pn')
    /\ (triple_lt (ma, mi, pa) (ma', mi', pa')
        \/ ((ma', mi', pa') = (ma, mi, pa)
            /\ exists id,
                 pt = Some id
                 /\ (pt' = None
                     \/ (pt' = Some id
                         /\ exists n', pn' = Some n' /\ (or_zero pn < n')%N)))).
Proof.
  intros Hparse Hid. pose proof (parse_version_inv _ _ _ _ _ _ Hparse) as Hpt.
  unfold bump_version. rewrite Hparse.
  destruct b; try (destruct pt as [id|];
                   [rewrite (truthy_runof _ _ Hpt)|cbn [truthy]]);
    eexists _, _, _, _, _, _; (split; [reflexivity|]);
    (split;
     [ first [ apply (prefix_of_format _ _ _ None None); reflexivity
             | apply (prefix_of_format _ _ _ (Some preid) (Some 0%N)); exact Hid
             | apply (prefix_of_format _ _ _ (Some id) (Some _)); exact Hpt ]
     | ]);
    unfold triple_lt;
    first [ left; lia
          | right; split; [reflexivity|]; exists id; split; [reflexivity|];
            first [ left; reflexivity
                  | right; split; [reflexivity|]; eexists; split;
                    [reflexivity|lia] ] ].
Qed.

Lemma bump_never_goes_back_witness :
  exists next ma' mi' pa' pt' pn',
    bump_version "v1.4.2-rc.1" PRERELEASE "alpha" = Ok next
    /\ parse_version next = Ok (ma', mi', pa', pt', pn')
    /\ (triple_lt (1, 4, 2)%N (ma', mi', pa')
        \/ ((ma', mi', pa') = (1, 4, 2)%N
            /\ exists id,
                 Some "rc" = Some id
                 /\ (pt' = None
                     \/ (pt' = Some id
                         /\ exists n',
                              pn' = Some n'
                              /\ (or_zero (Some 1%N) < n')%N)))).
Proof.
  refine (bump_never_goes_back "v1.4.2-rc.1" "alpha" PRERELEASE 1 4 2
            (Some "rc") (Some 1%N) eq_refl (conj _ eq_refl)).
  discriminate.
Defined.

Lemma span_fst_snd (p : ascii -> bool) (s : string) :
  s = fst (span p s) ++ snd (span p s)
  /\ all p (fst (span p s)) = true
  /\ starts p (snd (span p s)) = false.
Proof.
  induction s as [|c s (IH1 & IH2 & IH3)]; simpl; [auto|].
  destruct (p c) eqn:E; [|simpl; auto].
  destruct (span p s) as [u v]; simpl in *. rewrite E, IH2.
  repeat split; [congruence|assumption].
Qed.

Lemma span_unique (p : ascii -> bool) u u' v v' :
  all p u = true -> all p u' = true ->
  starts p v = false -> starts p v' = false ->
  u ++ v = u' ++ v' -> u = u' /\ v = v'.
Proof.
  intros Hu Hu' Hv Hv' E.
  pose proof (span_app p u v Hu Hv) as H1.
  pose proof (span_app p u' v' Hu' Hv') as H2.
  rewrite E, H2 in H1. now injection H1 as -> ->.
Qed.

Lemma at_end_cases after :
  at_end after = true -> after = "" \/ after = String newline "".
Proof.
  destruct after as [|c t]; simpl; [now left|].
  intros H. apply andb_true_iff in H as [Hc Ht].
  apply Ascii.eqb_eq in Hc. apply String.eqb_eq in Ht. subst. now right.
Qed.

Lemma digit_not_letter c : is_digit c = true -> is_letter c = false.
Proof. intros H. by_cases c H. Qed.

Lemma identifier_rejected (a b c preid : string) :
  runof is_digit a -> runof is_digit b -> runof is_digit c ->
  preid <> "" -> all is_letter preid = false ->
  re_match version_re (a ++ "." ++ b ++ "." ++ c ++ "-" ++ preid ++ ".0")
  = None.
Proof.
  intros [Hna Ha] [Hnb Hb] [Hnc Hc] Hne Hnl.
  destruct (re_match version_re _) as [g|] eqn:E; [exfalso|reflexivity].
  apply re_match_some in E as (u & after & E & Hsem).
  apply version_sem_inv in Hsem
    as (ma & mi & pa & o & -> & [_ Hma] & [_ Hmi] & [_ Hpa] & _ & _ & _
        & Hend & Ho).
  rewrite !app_assoc in E. cbn [append] in E.
  apply (span_unique is_digit) in E as [<- E]; try assumption; try reflexivity.
  injection E as E.
  apply (span_unique is_digit) in E as [<- E]; try assumption; try reflexivity.
  injection E as E.
  assert (Hafter : forall q, q newline = false -> starts q after = false).
  { intros q Hq. destruct (at_end_cases _ Hend) as [-> | ->]; [reflexivity|exact Hq]. }
  destruct Ho as [(-> & _)|(id & dot & num & -> & [Hnid Hid] & Hdot & Hnum & _)].
  - apply (span_unique is_digit) in E as [_ E]; try assumption;
      try reflexivity; [|now apply Hafter].
    cbn [append] in E. rewrite <- E in Hend. discriminate.
  - rewrite !app_assoc in E. cbn [append] in E.
    apply (span_unique is_digit) in E as [_ E]; try assumption;
      try reflexivity.
    injection E as E.
    destruct (span_fst_snd is_letter preid) as (Hsplit & Hl & Hr).
    destruct (span is_letter preid) as [l r]. simpl in *.
    assert (Hrne : exists x r', r = String x r').
    { destruct r as [|x r']; [|eauto]. rewrite app_nil_r in Hsplit.
      subst l. congruence. }
    destruct Hrne as (x & r' & ->).
    rewrite Hsplit, !app_assoc in E. cbn [append] in E.
    assert (Hq : all digit_or_newline (num ++ after) = true).
    { rewrite all_app. apply andb_true_iff. split.
      - clear -Hnum. induction num as [|d num IH]; simpl in *; [reflexivity|].
        apply andb_true_iff in Hnum as [Hd Hn]. unfold digit_or_newline at 1.
        now rewrite Hd, IH.
      - destruct (at_end_cases _ Hend) as [-> | ->]; reflexivity. }
    assert (Hbad : forall y, all digit_or_newline (y ++ ".0") = false).
    { intros y. rewrite all_app. apply andb_false_iff. now right. }
    apply (span_unique is_letter) in E as [_ E]; try assumption;
      try reflexivity.
    + destruct Hdot as [-> | ->]; cbn [append] in E.
      * rewrite <- E in Hq.
        change (String x (r' ++ ".0")) with (String x r' ++ ".0") in Hq.
        rewrite Hbad in Hq. discriminate.
      * injection E as -> E. rewrite <- E, Hbad in Hq. discriminate.
    + destruct Hdot as [-> | ->]; [|reflexivity]. cbn [append].
      destruct num as [|d num]; cbn [append].
      * apply Hafter. reflexivity.
      * simpl in Hnum. apply andb_true_iff in Hnum as [Hd _].
        now apply digit_not_letter.
Qed.

Lemma format_pre_rejected ma mi pa preid current :
  preid <> "" -> all is_letter preid = false ->
  succeeded (parse_version
               (format_version ma mi pa (Some preid) (Some 0%N)
                               (prefix_of current))) = false.
Proof.
  intros Hne Hnl. rewrite format_version_text.
  destruct preid as [|c t]; [now destruct Hne|]. cbn [suffix_text].
  unfold parse_version.
  assert (lstrip "v" (prefix_of current ++ str ma ++ "." ++ str mi ++ "."
                      ++ str pa ++ "-" ++ String c t ++ "." ++ str 0)
          = str ma ++ "." ++ str mi ++ "." ++ str pa ++ "-" ++ String c t
            ++ ".0") as ->.
  { destruct (prefix_of_cases current) as [-> | ->]; simpl;
      apply lstrip_digit, str_starts_digit. }
  rewrite identifier_rejected by auto using str_runof. reflexivity.
Qed.

(** X6.  [bump_version] does not check the identifier it is given: for
    every version string that parses and every non-empty identifier
    with a character that is not a letter, [premajor], [preminor],
    [prepatch], and [prerelease] from a version without prerelease,
    return a string that [parse_version] rejects. *)
Theorem bump_identifier_must_be_letters (current preid : string) (b : BumpType)
    (ma mi pa : N) (pt : option string) (pn : option N) :
  parse_version current = Ok (ma, mi, pa, pt, pn) ->
  preid <> "" -> all is_letter preid = false ->
  is_pre_policy b = true \/ (b = PRERELEASE /\ pt = None) ->
  exists next,
    bump_version current b preid = Ok next
    /\ succeeded (parse_version next) = false.
Proof.
  intros Hparse Hne Hnl Hb. unfold bump_version. rewrite Hparse.
  destruct Hb as [Hb|[-> ->]]; [destruct b; try discriminate|];
    eexists; (split; [reflexivity|]); now apply format_pre_rejected.
Qed.

Lemma bump_identifier_must_be_letters_witness :
  exists next,
    bump_version "v1.4.2" PREMINOR "rc1" = Ok next
    /\ succeeded (parse_version next) = false.
Proof.
  refine (bump_identifier_must_be_letters "v1.4.2" "rc1" PREMINOR 1 4 2 None
            None eq_refl _ eq_refl (or_introl eq_refl)).
  discriminate.
Defined.

Lemma parse_format_value (v : SemanticVersion) :
  valid v -> parse (format v) = Ok v.
Proof.
  destruct v as [ma mi pa pre pfx]. intros [Hpfx Hpre]. simpl in Hpfx, Hpre.
  unfold parse, format. cbn [major minor patch prerelease prefix].
  destruct (parse_format ma mi pa
              (pre_type_of (Version ma mi pa pre pfx))
              (pre_num_of (Version ma mi pa pre pfx)) pfx Hpfx) as [Hp Hx].
  - destruct pre as [[id n]|]; [exact Hpre|reflexivity].
  - rewrite Hp, Hx. f_equal. f_equal.
    destruct pre as [[id n]|]; reflexivity.
Qed.

(** X7.  Two different versions (each with prefix [""] or ["v"] and
    with no prerelease or a non-empty all-letter identifier) have
    different formatted strings. *)
Theorem format_injective (v v' : SemanticVersion) :
  valid v -> valid v' -> v <> v' -> format v <> format v'.
Proof.
  intros Hv Hv' Hneq E. apply Hneq.
  pose proof (parse_format_value v Hv) as H.
  rewrite E, (parse_format_value v' Hv') in H. now injection H.
Qed.

Lemma format_injective_witness :
  format (Version 1 2 3 None "v")
  <> format (Version 1 2 3 (Some ("rc", None)) "v").
Proof.
  apply format_injective.
  - split; [now right|exact I].
  - split; [now right|]. split; [discriminate|reflexivity].
  - discriminate.
Defined.

Lemma analyze_commits_tests commits :
  analyze_commits commits
  = if existsb breaking_test commits then MAJOR
    else if existsb feature_test commits then MINOR else PATCH.
Proof. unfold analyze_commits. now rewrite analyze_fold. Qed.

Lemma analyze_commits_release commits :
  is_release_policy (analyze_commits commits) = true.
Proof.
  rewrite analyze_commits_tests.
  destruct (existsb breaking_test commits), (existsb feature_test commits);
    reflexivity.
Qed.

(** X8.  The suggestion for two lists of commits put together is the
    stronger of the two suggestions, [major] above [minor] above
    [patch]; the suggestion does not depend on the order of the
    commits; and it is always [major], [minor] or [patch]. *)
Theorem analyze_commits_combines :
  (forall a b,
      analyze_commits (a ++ b)
      = stronger (analyze_commits a) (analyze_commits b))
  /\ (forall a b, Permutation a b -> analyze_commits a = analyze_commits b)
  /\ (forall a, is_release_policy (analyze_commits a) = true).
Proof.
  split; [|split].
  - intros a b. rewrite !analyze_commits_tests, !existsb_app.
    destruct (existsb breaking_test a), (existsb breaking_test b),
             (existsb feature_test a), (existsb feature_test b); reflexivity.
  - intros a b Hp. rewrite !analyze_commits_tests.
    assert (H : forall f, existsb f a = existsb f b).
    { intros f. apply eq_true_iff_eq. rewrite !existsb_exists.
      split; intros (x & Hin & Hx); exists x; (split; [|assumption]).
      - now apply (Permutation_in _ Hp).
      - now apply (Permutation_in _ (Permutation_sym Hp)). }
    now rewrite !H.
  - apply analyze_commits_release.
Qed.

Lemma analyze_commits_combines_witness :
  analyze_commits [Commit "a" "fix: x"; Commit "b" "feat!: y"]
  = analyze_commits [Commit "b" "feat!: y"; Commit "a" "fix: x"].
Proof.
  apply (proj1 (proj2 analyze_commits_combines)). apply perm_swap.
Defined.

Lemma bump_release_parses (current preid : string) (b : BumpType)
    (ma mi pa : N) (pt : option string) (pn : option N) :
  parse_version current = Ok (ma, mi, pa, pt, pn) ->
  is_release_policy b = true ->
  exists next ma' mi' pa',
    bump_version current b preid = Ok next
    /\ parse_version next = Ok (ma', mi', pa', None, None).
Proof.
  intros Hparse Hb. pose proof (parse_version_inv _ _ _ _ _ _ Hparse) as Hpt.
  unfold bump_version. rewrite Hparse.
  destruct b; try discriminate Hb;
    try (destruct pt as [id|];
         [rewrite (truthy_runof _ _ Hpt)|cbn [truthy]]);
    eexists _, _, _, _; (split; [reflexivity|]);
    apply (prefix_of_format _ _ _ None None); reflexivity.
Qed.

(** X9.  Whenever the command [next] shows a suggestion, a tag was
    found, the count shown is the number of commits read from the log
    and is positive, the suggested bump is [major], [minor] or [patch],
    and the next version shown parses as a version without
    prerelease. *)
Theorem next_suggests_release (current_version : option string)
    (log_stdout current next_version : string) (count : nat)
    (suggested : BumpType) :
  next current_version log_stdout
  = Suggestion current count suggested next_version ->
  current_version = Some current
  /\ count = List.length (commits_of_log log_stdout) /\ 0 < count
  /\ is_release_policy suggested = true
  /\ exists ma mi pa,
       parse_version next_version = Ok (ma, mi, pa, None, None).
Proof.
  unfold next.
  destruct current_version as [cur|]; [|discriminate].
  destruct cur as [|c0 cur'] eqn:Hcur; [discriminate|].
  rewrite <- Hcur. clear Hcur.
  destruct (commits_of_log log_stdout) as [|c cs] eqn:Hlog; [discriminate|].
  pose proof (analyze_commits_release (c :: cs)) as Hpol.
  destruct (parse_version cur) as [[[[[ma mi] pa] pt] pn]|t] eqn:Hp.
  - destruct (bump_release_parses cur "alpha" _ _ _ _ _ _ Hp Hpol)
      as (nv & ma' & mi' & pa' & Hb & Hnv).
    rewrite Hb. intros [= <- <- <- <-].
    repeat split; [simpl; lia|exact Hpol|eauto].
  - unfold bump_version. rewrite Hp. discriminate.
Qed.

Lemma next_suggests_release_witness :
  exists ma mi pa, parse_version "v1.5.0" = Ok (ma, mi, pa, None, None).
Proof.
  refine (proj2 (proj2 (proj2 (proj2
    (next_suggests_release (Some "v1.4.2-rc.1")
       ("0123456789abcdef|feat(api): add search" ++ String newline
        "fedcba9876543210|fix: typo" ++ String newline "")
       "v1.4.2-rc.1" "v1.5.0" 2 MINOR _))))).
  vm_compute. reflexivity.
Defined.

End BumpFacts.

(* ===================================================================== *)
(** ** git-release.py: reading the output of [git log] *)
(* ===================================================================== *)

Module ReleaseLogFacts.
Import Text Properties TextFacts StringFacts Release.








(** X11.  Whatever the output of [git log], every commit that
    [get_commits_since_tag] returns has a hash of at most eight
    characters without bar and without newline, and a subject without
    newline. *)
Theorem commits_of_log_fields (stdout : string) (c : commit) :
  In c (commits_of_log stdout) ->
  String.length (hash c) <= 8
  /\ all field_char (hash c) = true
  /\ all is_dot (subject c) = true.
Proof.
  unfold commits_of_log. intros (line & Hline & Hc)%in_flat_map.
  apply split_on_pieces in Hline. change (no newline) with is_dot in Hline.
  unfold commits_of_line in Hc.
  destruct line as [|a l] eqn:E; [destruct Hc|]. rewrite <- E in *. clear E.
  destruct (split_max "|" 1 line) as [|h [|subj [|? ?]]] eqn:Hs;
    try contradiction.
  destruct Hc as [<-|[]].
  destruct (split_max_inv _ _ _ _ _ _ Hs)
    as (Hh & n & t & [= <-] & -> & Ht).
  assert (subj = t) as -> by (destruct t; now injection Ht).
  rewrite all_app in Hline. apply andb_prop in Hline as [Hd Hsub].
  simpl in Hsub. cbn [hash subject].
  split; [apply take_length|]. split; [|exact Hsub].
  apply take_all. unfold field_char. rewrite all_and.
  now rewrite Hh, Hd.
Qed.

Lemma commits_of_log_fields_witness :
  String.length "01234567" <= 8
  /\ all field_char "01234567" = true
  /\ all is_dot "a | b" = true.
Proof.
  refine (commits_of_log_fields
            ("0123456789abcdef|a | b" ++ String newline "no bar here")
            (Commit "01234567" "a | b") _).
  left. reflexivity.
Defined.

End ReleaseLogFacts.

(* ===================================================================== *)
(** ** git-changelog.py: reading the output of [git log] *)
(* ===================================================================== *)

Module ChangelogLogFacts.
Import Text Properties TextFacts StringFacts Changelog.








Lemma line_dot_parts h d a s :
  all is_dot (h ++ String "|" (d ++ String "|" (a ++ String "|" s))) = true ->
  all is_dot h = true /\ all is_dot d = true
  /\ all is_dot a = true /\ all is_dot s = true.
Proof.
  repeat (rewrite all_app || rewrite all_cons). intros H.
  repeat (apply andb_prop in H as [? H]). auto.
Qed.




(** X13.  Whatever the output of [git log], when [get_commits_between]
    returns, every commit in its list has a hash of at most eight
    characters without bar and newline, a non-empty date without white
    space and bar, an author without bar and newline, and a subject
    without newline. *)
Theorem get_commits_between_fields (stdout : string) (commits : list commit)
    (c : commit) :
  commits_of_log stdout = Returned commits ->
  In c commits ->
  String.length (hash c) <= 8
  /\ all field_char (hash c) = true
  /\ date c <> "" /\ all hash_char (date c) = true
  /\ all field_char (author c) = true
  /\ all is_dot (subject c) = true.
Proof.
  unfold commits_of_log.
  assert (Hl : Forall (fun l => all is_dot l = true)
                 (split_on newline (strip stdout))).
  { apply Forall_forall. intros l. apply split_on_pieces. }
  revert Hl commits. generalize (split_on newline (strip stdout)).
  intros lines. induction lines as [|line lines IH]; intros Hl commits.
  - intros [= <-] [].
  - inversion Hl as [|? ? Hline Hl']; subst. cbn [commits_of_lines].
    destruct line as [|a0 l0] eqn:E; [now apply IH|]. rewrite <- E in *.
    clear E.
    destruct (split_max "|" 3 line) as [|h [|d [|a [|s [|? ?]]]]] eqn:Hs;
      try now apply IH.
    destruct (first_word d) as [w|] eqn:Hw; [|discriminate].
    destruct (commits_of_lines lines) as [cs|] eqn:Hcs; [|discriminate].
    remember (take 8 h) as h8 eqn:Eh8.
    intros [= <-] [<-|Hin]; [|now apply (IH Hl' cs)]. subst h8.
    destruct (split_max_four_inv _ _ _ _ _ Hs) as (-> & Hh & Hd & Ha).
    destruct (line_dot_parts _ _ _ _ Hline) as (Dh & Dd & Da & Ds).
    destruct (first_word_shape _ _ Hw) as [Hne Hns].
    cbn [hash date author subject]. unfold field_char, hash_char.
    rewrite !all_and, Ha, Da, Hns, Ds, (first_word_sub _ _ _ Hw Hd).
    rewrite !take_all by assumption.
    repeat split; [apply take_length|exact Hne].
Qed.

Lemma get_commits_between_fields_witness :
  String.length "01234567" <= 8
  /\ all field_char "01234567" = true
  /\ "2024-03-01" <> "" /\ all hash_char "2024-03-01" = true
  /\ all field_char "Ada L." = true
  /\ all is_dot "fix(ui): a | b" = true.
Proof.
  refine (get_commits_between_fields
            ("0123456789abcdef|2024-03-01 10:22:31 +0100|Ada L.|fix(ui): a | b"
               ++ String newline "not a log line")
            [Commit "01234567" "2024-03-01" "Ada L." "fix(ui): a | b"]
            (Commit "01234567" "2024-03-01" "Ada L." "fix(ui): a | b")
            eq_refl _).
  left. reflexivity.
Defined.

(** X14.  [get_commits_between] raises [IndexError] exactly when some
    line of the stripped output has at least three bars and nothing but
    white space between the first bar and the second: the date field
    then splits into no word. *)
Theorem get_commits_between_raises (stdout : string) :
  commits_of_log stdout = IndexError
  <-> exists h d a s,
        In (h ++ String "|" (d ++ String "|" (a ++ String "|" s)))
           (split_on newline (strip stdout))
        /\ all (no "|") h = true /\ all (no "|") d = true
        /\ all (no "|") a = true /\ all is_space d = true.
Proof.
  unfold commits_of_log. generalize (split_on newline (strip stdout)).
  intros lines. induction lines as [|line lines IH].
  - split; [discriminate|]. now intros (h & d & a & s & [] & _).
  - cbn [commits_of_lines].
    assert (Hskip :
      (forall h d a s,
          line = h ++ String "|" (d ++ String "|" (a ++ String "|" s)) ->
          all (no "|") h = true -> all (no "|") d = true ->
          all (no "|") a = true -> all is_space d = true -> False) ->
      (commits_of_lines lines = IndexError
       <-> exists h d a s,
             In (h ++ String "|" (d ++ String "|" (a ++ String "|" s)))
                (line :: lines)
             /\ all (no "|") h = true /\ all (no "|") d = true
             /\ all (no "|") a = true /\ all is_space d = true)).
    { intros Hno. rewrite IH. split.
      - intros (h & d & a & s & Hin & H). exists h, d, a, s.
        split; [now right|exact H].
      - intros (h & d & a & s & [E|Hin] & Hh & Hd & Ha & Hs).
        + now destruct (Hno h d a s).
        + now exists h, d, a, s. }
    destruct line as [|a0 l0] eqn:E.
    { apply Hskip. intros h d a s E'. destruct h; discriminate. }
    rewrite <- E in *. clear E.
    destruct (split_max "|" 3 line) as [|h [|d [|a [|s [|? ?]]]]] eqn:Hs;
      try (apply Hskip; intros h' d' a' s' -> Hh' Hd' Ha' _;
           rewrite split_max_four in Hs by assumption; discriminate).
    destruct (first_word d) as [w|] eqn:Hw.
    + assert (Hd : all is_space d <> true).
      { intros Hd. apply first_word_none in Hd. congruence. }
      destruct (commits_of_lines lines) as [cs|] eqn:Hcs.
      * split; [discriminate|]. intros Hex. apply Hskip in Hex;
          [discriminate|].
        intros h' d' a' s' -> Hh' Hd' Ha' Hsp.
        rewrite split_max_four in Hs by assumption.
        injection Hs as <- <- <- <-. contradiction.
      * split; [intros _|reflexivity].
        destruct (proj1 IH eq_refl) as (h' & d' & a' & s' & Hin & H).
        exists h', d', a', s'. split; [now right|exact H].
    + split; [intros _|reflexivity].
      destruct (split_max_four_inv _ _ _ _ _ Hs) as (-> & Hh & Hd & Ha).
      exists h, d, a, s. split; [now left|].
      now rewrite Hh, Hd, Ha, (proj1 (first_word_none d) Hw).
Qed.

Lemma get_commits_between_raises_witness :
  commits_of_log "0123456789abcdef|  |Ada L.|fix: typo" = IndexError.
Proof.
  apply (proj2 (get_commits_between_raises _)).
  exists "0123456789abcdef", "  ", "Ada L.", "fix: typo".
  split; [left; reflexivity|]. repeat split.
Defined.

End ChangelogLogFacts.

(* ===================================================================== *)
(** ** git-changelog.py: what grouping and rendering keep *)
(* ===================================================================== *)

Module GroupingFacts.
Import Text Regex Grammar Properties TextFacts RegexFacts Changelog
       ChangelogFacts.

Lemma perm_append_to k c g :
  Permutation (flat_map snd (append_to k c g)) (flat_map snd g ++ [c])%list.
Proof.
  induction g as [|[k' l] g IH]; simpl; [reflexivity|].
  destruct (String.eqb k' k); simpl.
  - rewrite <- !List.app_assoc. apply Permutation_app_head, Permutation_app_comm.
  - rewrite <- List.app_assoc. now apply Permutation_app_head.
Qed.

Lemma perm_fold cs : forall g,
  Permutation (flat_map snd (fold_left step cs g))
              (flat_map snd g ++ map classify cs)%list.
Proof.
  induction cs as [|c cs IH]; intros g; simpl.
  - now rewrite List.app_nil_r.
  - rewrite IH. unfold step at 1. rewrite perm_append_to, <- List.app_assoc.
    reflexivity.
Qed.

Lemma perm_filter {A} (f : A -> bool) l l' :
  Permutation l l' -> Permutation (filter f l) (filter f l').
Proof.
  induction 1; simpl; try reflexivity.
  - destruct (f x); [now constructor|assumption].
  - destruct (f x), (f y); try reflexivity. constructor.
  - etransitivity; eassumption.
Qed.

Lemma append_to_buckets k c g :
  Forall (fun kv => snd kv <> [] /\ Forall (fun x => bucket_key x = fst kv) (snd kv)) g ->
  bucket_key c = k ->
  Forall (fun kv => snd kv <> [] /\ Forall (fun x => bucket_key x = fst kv) (snd kv))
         (append_to k c g).
Proof.
  intros Hg Hk. induction Hg as [|[k' l] g [Hne Hl] Hg IH]; simpl.
  - repeat constructor; [discriminate|exact Hk].
  - destruct (String.eqb k' k) eqn:E.
    + apply String.eqb_eq in E. subst k'. constructor; [|exact Hg]. simpl in *.
      split; [destruct l; discriminate|].
      apply Forall_app. split; [exact Hl|]. now constructor.
    + constructor; [now split|exact IH].
Qed.

Lemma fold_buckets cs : forall g,
  Forall (fun kv => snd kv <> [] /\ Forall (fun x => bucket_key x = fst kv) (snd kv)) g ->
  Forall (fun kv => snd kv <> [] /\ Forall (fun x => bucket_key x = fst kv) (snd kv))
         (fold_left step cs g).
Proof.
  induction cs as [|c cs IH]; intros g Hg; simpl; [exact Hg|].
  apply IH. unfold step. now apply append_to_buckets.
Qed.

Lemma bucket_key_names c : In (bucket_key c) bucket_names.
Proof.
  unfold bucket_key, bucket_names. apply in_or_app.
  destruct (known (c_type c)) eqn:E; [left|right; now left].
  unfold known in E. apply existsb_exists in E as (e & Hin & He).
  apply String.eqb_eq in He. rewrite <- He. now apply in_map.
Qed.

(** X16.  [group_commits] neither loses nor repeats a commit: the
    buckets together hold the classified input commits, each once; no
    bucket name occurs twice; and every bucket stored is non-empty, is
    named by a key of [COMMIT_TYPES] or ["other"], and holds only
    commits of that name. *)
Theorem group_commits_partitions (commits : list commit) :
  Permutation (flat_map snd (group_commits commits)) (map classify commits)
  /\ NoDup (map fst (group_commits commits))
  /\ forall k l,
       In (k, l) (group_commits commits) ->
       l <> [] /\ In k bucket_names
       /\ Forall (fun c => bucket_key c = k) l.
Proof.
  split; [|split].
  - rewrite group_commits_fold. apply (perm_fold commits []).
  - apply keys_NoDup.
  - intros k l Hin.
    pose proof (fold_buckets commits [] (Forall_nil _)) as H.
    rewrite <- group_commits_fold in H.
    rewrite Forall_forall in H. destruct (H _ Hin) as [Hne Hl].
    simpl in *. split; [exact Hne|]. split; [|exact Hl].
    destruct l as [|c l']; [congruence|].
    inversion Hl; subst. apply bucket_key_names.
Qed.

Lemma group_commits_partitions_witness :
  map classify
      [Commit "b2b2b2b2" "2024-01-02" "dev" "fix!: crash on null"] <> []
  /\ In "fix" bucket_names
  /\ Forall (fun c => bucket_key c = "fix")
            (map classify
               [Commit "b2b2b2b2" "2024-01-02" "dev" "fix!: crash on null"]).
Proof.
  apply (proj2 (proj2 (group_commits_partitions example_commits))).
  right. left. vm_compute. reflexivity.
Defined.

(** X17.  The breaking-changes list of [format_markdown] holds exactly
    the breaking commits of the input, each once (in some order), and
    every commit in it is also in the bucket of its type. *)
Theorem breaking_changes_complete (commits : list commit) :
  Permutation (breaking_changes (group_commits commits))
              (filter c_breaking (map classify commits))
  /\ forall c,
       In c (breaking_changes (group_commits commits)) ->
       In c (bucket (bucket_key c) (group_commits commits)).
Proof.
  split.
  - rewrite breaking_filter. apply perm_filter.
    rewrite group_commits_fold. apply (perm_fold commits []).
  - intros c Hc. rewrite breaking_filter in Hc.
    apply filter_In in Hc as [Hc _].
    rewrite bucket_group_commits. apply filter_In. split.
    + rewrite group_commits_fold in Hc.
      apply (Permutation_in _ (perm_fold commits [])) in Hc. exact Hc.
    + unfold in_bucket. apply String.eqb_refl.
Qed.

Lemma breaking_changes_complete_witness :
  let c := classify
             (Commit "b2b2b2b2" "2024-01-02" "dev" "fix!: crash on null") in
  In c (bucket (bucket_key c) (group_commits example_commits)).
Proof.
  intros c. apply (proj2 (breaking_changes_complete example_commits)).
  right. left. vm_compute. reflexivity.
Defined.

(** *** The list items of a rendering *)

Lemma entry_is_entry c : is_entry (entry c) = true.
Proof. reflexivity. Qed.

Lemma raw_entry_is_entry c : is_entry (raw_entry c) = true.
Proof. reflexivity. Qed.

End GroupingFacts.

(* ===================================================================== *)
(** ** git-changelog.py: the fields [parse_commit] returns *)
(* ===================================================================== *)

Module CommitFacts.
Import Text Regex Grammar Properties TextFacts RegexFacts Changelog
       ChangelogFacts.

Lemma commit_sem_groups u after g :
  sem commit_re 0 u after [] g ->
  exists ty sc bang ws w2 m,
    u = header ty sc bang ws ++ w2 ++ m
    /\ header_ok ty sc ws /\ all is_space w2 = true
    /\ runof is_dot m /\ at_end after = true
    /\ g = (4, m) :: header_groups ty sc bang.
Proof.
  intros H. cbn [sem commit_re message_re Chr] in H.
  break. all: chars.
  all: match goal with
       | Hty : all is_word ?ty = true, Hws : all is_space ?ws = true,
         Hw2 : all is_space ?w2 = true, Hm : all is_dot ?m = true |- _ =>
           match goal with
           | Hsc : all not_rparen ?x = true |- _ =>
               match goal with
               | |- context [(3, _)] =>
                   exists ty, (Some x), true, ws, w2, m
               | _ => exists ty, (Some x), false, ws, w2, m
               end
           | _ =>
               match goal with
               | |- context [(3, _)] =>
                   exists ty, None, true, ws, w2, m
               | _ => exists ty, None, false, ws, w2, m
               end
           end
       end.
  all: unfold header, header_ok, header_groups, runof;
    cbn [scope_text bang_text append app].
  all: repeat first [rewrite app_assoc | rewrite app_nil_r
                    | progress cbn [append]].
  all: repeat split; eauto.
Qed.

Lemma lower_char_idem c : lower_char (lower_char c) = lower_char c.
Proof. destruct c as [[] [] [] [] [] [] [] []]; reflexivity. Qed.

Lemma lower_char_word c : is_word c = true -> is_word (lower_char c) = true.
Proof. intros H. by_cases c H. Qed.

Lemma lower_idem s : lower (lower s) = lower s.
Proof.
  induction s as [|c s IH]; simpl; [reflexivity|].
  now rewrite lower_char_idem, IH.
Qed.

Lemma lower_word s : all is_word s = true -> all is_word (lower s) = true.
Proof.
  induction s as [|c s IH]; simpl; [reflexivity|].
  intros [Hc Hs]%andb_prop. now rewrite (lower_char_word _ Hc), IH.
Qed.

Lemma lower_nonempty s : s <> "" -> lower s <> "".
Proof. destruct s; [congruence|discriminate]. Qed.

Lemma parse_commit_matched subject g :
  re_match commit_re subject = Some g ->
  exists ty sc bang ws w2 m after,
    subject = header ty sc bang ws ++ w2 ++ m ++ after
    /\ header_ok ty sc ws /\ all is_space w2 = true
    /\ runof is_dot m /\ at_end after = true
    /\ parse_commit subject
       = (lower ty, match sc with Some x => x | None => "" end, m, bang).
Proof.
  intros E. unfold parse_commit. rewrite E.
  destruct (re_match_some _ _ _ E) as (u & after & -> & Hsem).
  destruct (commit_sem_groups _ _ _ Hsem)
    as (t & s & bang & ws & w2 & m & -> & Hok & Hw2 & Hm & Hend & ->).
  exists t, s, bang, ws, w2, m, after.
  split; [now rewrite !app_assoc|]. repeat (split; [assumption|]).
  destruct Hok as (_ & Hs & _).
  destruct s as [[|c x]|], bang; try reflexivity;
    destruct Hs as [Hs _]; now destruct Hs.
Qed.

Lemma header_rest_starts sc bang ws tail :
  all is_space ws = true ->
  starts is_word (scope_text sc ++ bang_text bang ++ ws ++ String ":" tail)
  = false.
Proof.
  intros Hws. destruct sc as [x|]; [reflexivity|]. cbn [scope_text append].
  apply after_scope_starts; [exact Hws|apply space_not_word| |]; reflexivity.
Qed.

(** X15.  Whatever the subject, the type [parse_commit] returns is not
    empty, is left unchanged by [lower], and is ["other"] or the
    lower-cased run of word characters the subject starts with; the
    scope holds no closing parenthesis; the message is empty only when
    the subject is empty; and the message is the end of the subject, up
    to one final newline. *)
Theorem parse_commit_fields (subject ty sc msg : string) (br : bool) :
  parse_commit subject = (ty, sc, msg, br) ->
  (ty <> "" /\ lower ty = ty
   /\ (ty = "other"
       \/ exists word rest,
            subject = word ++ rest /\ runof is_word word
            /\ starts is_word rest = false /\ ty = lower word))
  /\ all not_rparen sc = true
  /\ (msg = "" <-> subject = "")
  /\ exists before,
       subject = before ++ msg \/ subject = before ++ msg ++ String newline "".
Proof.
  destruct (re_match commit_re subject) as [g|] eqn:E.
  - destruct (parse_commit_matched _ _ E)
      as (t & s & bang & ws & w2 & m & after & -> & (Ht & Hs & Hws) & _ & Hm
          & Hend & ->).
    intros [= <- <- <- _].
    destruct Ht as [Hne Hw]. destruct Hm as [Hmne _].
    split; [|split; [|split]].
    + split; [now apply lower_nonempty|]. split; [apply lower_idem|].
      right. exists t, (scope_text s ++ bang_text bang ++ ws
                        ++ String ":" (w2 ++ m ++ after)).
      split; [apply header_app|]. split; [now split|].
      split; [now apply header_rest_starts|reflexivity].
    + destruct s as [x|]; [apply Hs|reflexivity].
    + split; [congruence|]. intros Hsub.
      rewrite header_app in Hsub.
      destruct t; [congruence|discriminate].
    + exists (header t s bang ws ++ w2). rewrite !app_assoc.
      destruct after as [|c r]; [left; now rewrite app_nil_r|right].
      simpl in Hend. apply andb_prop in Hend as [Hc Hr].
      apply Ascii.eqb_eq in Hc. apply String.eqb_eq in Hr. now subst.
  - rewrite (parse_commit_other _ E). intros [= <- <- <- _].
    split; [split; [discriminate|split; [reflexivity|now left]]|].
    split; [reflexivity|]. split; [tauto|]. exists "". now left.
Qed.

Lemma parse_commit_fields_witness :
  ("fix" <> "" /\ lower "fix" = "fix"
   /\ ("fix" = "other"
       \/ exists word rest,
            "FIX(Ui)!:  no crash" ++ String newline "" = word ++ rest
            /\ runof is_word word
            /\ starts is_word rest = false /\ "fix" = lower word))
  /\ all not_rparen "Ui" = true
  /\ ("no crash" = "" <-> "FIX(Ui)!:  no crash" ++ String newline "" = "")
  /\ exists before,
       "FIX(Ui)!:  no crash" ++ String newline "" = before ++ "no crash"
       \/ "FIX(Ui)!:  no crash" ++ String newline ""
          = before ++ "no crash" ++ String newline "".
Proof.
  exact (parse_commit_fields ("FIX(Ui)!:  no crash" ++ String newline "")
           "fix" "Ui" "no crash" true eq_refl).
Defined.

End CommitFacts.

(* ===================================================================== *)
(** ** git-changelog.py: the sections of a rendering *)
(* ===================================================================== *)

Module RenderingFacts.
Import Text Regex Grammar Properties TextFacts RegexFacts StringFacts
       Changelog ChangelogFacts GroupingFacts CommitFacts.

(** *** Reading the lines *)

Lemma entry_not_title (line : string) :
  is_entry line = true -> is_heading line = false.
Proof.
  destruct line as [|c l]; [discriminate|].
  unfold is_entry, is_heading. cbn [startswith].
  destruct (Ascii.eqb "-" c) eqn:E; [|discriminate].
  apply Ascii.eqb_eq in E. subst c. reflexivity.
Qed.

Lemma items_until_items {A} (f : A -> string) (l : list A) rest :
  (forall x, is_entry (f x) = true) ->
  items_until_heading (map f l ++ rest)
  = (map f l ++ items_until_heading rest)%list.
Proof.
  intros H. induction l as [|x l IH]; [reflexivity|].
  cbn [map app items_until_heading].
  now rewrite (entry_not_title _ (H x)), H, IH.
Qed.

Lemma sections_items {A} (f : A -> string) (l : list A) rest :
  (forall x, is_entry (f x) = true) ->
  sections_of_lines (map f l ++ rest) = sections_of_lines rest.
Proof.
  intros H. induction l as [|x l IH]; [reflexivity|].
  cbn [map app sections_of_lines].
  now rewrite (entry_not_title _ (H x)), IH.
Qed.

Lemma sections_optional {A} title (f : A -> string) (l : list A) rest :
  is_heading title = true -> (forall x, is_entry (f x) = true) ->
  items_until_heading rest = [] ->
  sections_of_lines (optional_section title f l ++ rest)
  = (titled title f l ++ sections_of_lines rest)%list
  /\ items_until_heading (optional_section title f l ++ rest) = [].
Proof.
  intros Ht Hf Hr. destruct l as [|x l]; [split; [reflexivity|exact Hr]|].
  unfold optional_section, titled, section.
  rewrite <- !List.app_assoc.
  cbn [app sections_of_lines items_until_heading]. rewrite Ht.
  change (is_heading "") with false. change (is_entry "") with false.
  cbn iota.
  rewrite (items_until_items f (x :: l)), (sections_items f (x :: l))
    by exact Hf.
  cbn [sections_of_lines items_until_heading].
  change (is_heading "") with false. change (is_entry "") with false.
  cbn iota. rewrite Hr, List.app_nil_r. split; reflexivity.
Qed.

Lemma type_section_optional g e :
  type_section g e
  = optional_section (heading_of e) entry (bucket (fst e) g).
Proof.
  destruct e as [k [title emoji]].
  unfold type_section, optional_section, heading_of. cbn [fst snd].
  destruct (bucket k g); reflexivity.
Qed.

Lemma sections_types g (types : list (string * (string * string))) rest :
  items_until_heading rest = [] ->
  sections_of_lines (flat_map (type_section g) types ++ rest)
  = (flat_map (fun e => titled (heading_of e) entry (bucket (fst e) g)) types
     ++ sections_of_lines rest)%list
  /\ items_until_heading (flat_map (type_section g) types ++ rest) = [].
Proof.
  intros Hr. induction types as [|e types [IH1 IH2]]; [now split|].
  cbn [flat_map]. rewrite <- !List.app_assoc, type_section_optional.
  destruct (sections_optional (heading_of e) entry (bucket (fst e) g)
              (flat_map (type_section g) types ++ rest)
              eq_refl entry_is_entry IH2) as [H1 H2].
  rewrite H1, H2, IH1. now split.
Qed.

Lemma format_lines_shape version date g url :
  exists header,
    is_heading header = false
    /\ (one_line version -> one_line date -> one_line_url url ->
        one_line header)
    /\ format_markdown_lines version date g url
       = (header :: ""
          :: optional_section breaking_title entry (breaking_changes g)
          ++ flat_map (type_section g) COMMIT_TYPES
          ++ optional_section other_title raw_entry (bucket "other" g))%list.
Proof.
  unfold format_markdown_lines. eexists. split; [|split]; cycle 2.
  - cbn [app]. unfold optional_section, breaking_title, other_title.
    destruct (breaking_changes g), (bucket "other" g); reflexivity.
  - destruct url as [[|c u]|]; reflexivity.
  - unfold one_line, one_line_url. intros Hv Hd Hu.
    destruct url as [[|c u]|];
      repeat (rewrite all_app || rewrite all_cons);
      rewrite ?Hv, ?Hd; try reflexivity.
    unfold one_line in Hu. rewrite all_cons in Hu.
    apply andb_prop in Hu as [-> ->]. reflexivity.
Qed.

Lemma sections_format version date g url :
  sections_of_lines (format_markdown_lines version date g url)
  = expected_sections g.
Proof.
  destruct (format_lines_shape version date g url) as (h & Hh & _ & ->).
  cbn [sections_of_lines]. rewrite Hh.
  change (is_heading "") with false. cbn iota.
  destruct (sections_optional other_title raw_entry (bucket "other" g) []
              eq_refl raw_entry_is_entry eq_refl) as [O1 O2].
  rewrite List.app_nil_r in O1, O2.
  destruct (sections_types g COMMIT_TYPES _ O2) as [T1 T2].
  destruct (sections_optional breaking_title entry (breaking_changes g) _
              eq_refl entry_is_entry T2) as [B1 _].
  rewrite B1, T1, O1. unfold expected_sections.
  now rewrite List.app_nil_r.
Qed.

Lemma titles_expected g :
  map fst (expected_sections g) = expected_headings g.
Proof.
  unfold expected_sections, expected_headings. rewrite !map_app.
  f_equal; [|f_equal].
  - destruct (breaking_changes g); reflexivity.
  - generalize COMMIT_TYPES. intros l.
    induction l as [|e l IH]; [reflexivity|].
    cbn [flat_map]. rewrite map_app, IH. f_equal.
    destruct (bucket (fst e) g); reflexivity.
  - destruct (bucket "other" g); reflexivity.
Qed.

(** *** From the text to its lines *)

Lemma one_line_entry c : one_line_commit c -> one_line (entry c).
Proof.
  intros (Hs & Hm & Hh & _). unfold one_line, entry in *.
  destruct (c_scope c) as [|a s] eqn:E;
    repeat (rewrite all_app || rewrite all_cons);
    rewrite ?Hm, ?Hh; try reflexivity.
  rewrite all_cons in Hs. apply andb_prop in Hs as [-> ->]. reflexivity.
Qed.

Lemma one_line_raw_entry c : one_line_commit c -> one_line (raw_entry c).
Proof.
  intros (_ & _ & Hh & Hs). unfold one_line, raw_entry in *.
  repeat (rewrite all_app || rewrite all_cons).
  now rewrite Hh, Hs.
Qed.

Lemma one_line_optional {A} title (f : A -> string) (l : list A)
    (P : A -> Prop) :
  one_line title -> (forall x, P x -> one_line (f x)) -> Forall P l ->
  Forall one_line (optional_section title f l).
Proof.
  intros Ht Hf Hl. destruct l as [|x l]; [constructor|].
  unfold optional_section, section.
  apply Forall_app. split; [repeat constructor; exact Ht|].
  apply Forall_app. split; [|repeat constructor].
  apply Forall_map. revert Hl. apply Forall_impl. exact Hf.
Qed.

Lemma one_line_members g :
  one_line_grouped g -> Forall one_line_commit (flat_map snd g).
Proof.
  intros H. apply Forall_flat_map. exact H.
Qed.

Lemma one_line_bucket g k :
  one_line_grouped g -> Forall one_line_commit (bucket k g).
Proof.
  induction 1 as [|[k' l] g Hl _ IH]; cbn [bucket]; [constructor|].
  destruct (String.eqb k' k); [exact Hl|exact IH].
Qed.

Lemma one_line_breaking g :
  one_line_grouped g -> Forall one_line_commit (breaking_changes g).
Proof.
  intros H. rewrite breaking_filter. apply Forall_forall.
  intros c [Hc _]%filter_In.
  now apply (proj1 (Forall_forall _ _) (one_line_members g H)).
Qed.

Lemma one_line_headings :
  Forall (fun e => one_line (heading_of e)) COMMIT_TYPES.
Proof. repeat constructor. Qed.

Lemma one_line_lines version date g url :
  one_line version -> one_line date -> one_line_url url ->
  one_line_grouped g ->
  Forall one_line (format_markdown_lines version date g url).
Proof.
  intros Hv Hd Hu Hg.
  destruct (format_lines_shape version date g url) as (h & _ & Hh & ->).
  constructor; [now apply Hh|]. constructor; [reflexivity|].
  apply Forall_app; split; [|apply Forall_app; split].
  - apply (one_line_optional _ _ _ one_line_commit);
      [reflexivity|apply one_line_entry|now apply one_line_breaking].
  - apply Forall_flat_map.
    pose proof one_line_headings as Ht. revert Ht. apply Forall_impl.
    intros e He. rewrite type_section_optional.
    apply (one_line_optional _ _ _ one_line_commit);
      [exact He|apply one_line_entry|now apply one_line_bucket].
  - apply (one_line_optional _ _ _ one_line_commit);
      [reflexivity|apply one_line_raw_entry|now apply one_line_bucket].
Qed.

Lemma lines_of_format version date g url :
  one_line version -> one_line date -> one_line_url url ->
  one_line_grouped g ->
  split_on newline (format_markdown version date g url)
  = format_markdown_lines version date g url.
Proof.
  intros Hv Hd Hu Hg. unfold format_markdown. apply split_on_join.
  - destruct (format_lines_shape version date g url) as (h & _ & _ & ->).
    discriminate.
  - exact (one_line_lines version date g url Hv Hd Hu Hg).
Qed.

Lemma sections_of_format version date g url :
  one_line version -> one_line date -> one_line_url url ->
  one_line_grouped g ->
  sections_of (format_markdown version date g url) = expected_sections g.
Proof.
  intros Hv Hd Hu Hg. unfold sections_of.
  rewrite lines_of_format by assumption. apply sections_format.
Qed.

(** *** Grouped input commits *)

Lemma one_line_classify c : one_line_source c -> one_line_commit (classify c).
Proof.
  intros [Hh Hs]. unfold classify.
  destruct (re_match commit_re (subject c)) as [g|] eqn:E.
  - destruct (parse_commit_matched _ _ E)
      as (t & s & bang & ws & w2 & m & after & Esub & (_ & Hsc & _) & _
          & [_ Hm] & _ & ->).
    split; [|split; [exact Hm|now split]]. cbn [c_scope].
    destruct s as [x|]; [|reflexivity].
    unfold one_line in Hs. rewrite Esub, header_app in Hs.
    cbn [scope_text] in Hs.
    repeat (rewrite all_app in Hs || rewrite all_cons in Hs).
    repeat match goal with
           | H : _ && _ = true |- _ => apply andb_prop in H as [? ?]
           end.
    assumption.
  - rewrite (parse_commit_other _ E).
    split; [reflexivity|]. split; [exact Hs|now split].
Qed.

Lemma one_line_group_commits commits :
  Forall one_line_source commits -> one_line_grouped (group_commits commits).
Proof.
  intros H. unfold one_line_grouped. apply Forall_forall. intros [k l] Hkl.
  apply Forall_forall. intros x Hx.
  assert (Hin : In x (flat_map snd (group_commits commits))).
  { apply in_flat_map. exists (k, l). now split. }
  rewrite group_commits_fold in Hin. apply members_fold in Hin.
  destruct Hin as [[]|Hin]. apply in_map_iff in Hin as (c & <- & Hc).
  apply one_line_classify.
  now apply (proj1 (Forall_forall _ _) H).
Qed.

(** C8.  Read back section by section, a rendering holds: the breaking
    changes with their items, when there are any; then the known types
    in the order [feat, fix, docs, style, refactor, perf, test, build,
    ci, chore, revert, security], each with the items of its bucket in
    the order of the bucket, and only when the bucket is not empty; then
    the other changes with the raw subjects of their bucket, when it is
    not empty.  This holds of the lines of every grouped change set, and
    of the rendered text whenever version, date, link and commit fields
    are one line each.  The section titles do not depend on the order
    of the input commits, and the bucket of the other changes holds the
    commits whose type is not a known one. *)
Theorem rendering_order :
  map fst COMMIT_TYPES
  = ["feat"; "fix"; "docs"; "style"; "refactor"; "perf"; "test"; "build";
     "ci"; "chore"; "revert"; "security"]
  /\ (forall version date g url,
        sections_of_lines (format_markdown_lines version date g url)
        = expected_sections g)
  /\ (forall version date g url,
        one_line version -> one_line date -> one_line_url url ->
        one_line_grouped g ->
        sections_of (format_markdown version date g url)
        = expected_sections g)
  /\ (forall version date url commits commits',
        Permutation commits commits' ->
        map fst (sections_of_lines
                   (format_markdown_lines version date
                      (group_commits commits) url))
        = map fst (sections_of_lines
                     (format_markdown_lines version date
                        (group_commits commits') url)))
  /\ (forall commits,
        bucket "other" (group_commits commits)
        = filter (fun c => negb (known (c_type c))) (map classify commits)).
Proof.
  split; [reflexivity|]. split; [apply sections_format|].
  split; [apply sections_of_format|]. split.
  - intros. rewrite !sections_format, !titles_expected.
    now apply expected_headings_perm.
  - intros. rewrite bucket_group_commits. apply filter_ext, other_bucket.
Qed.

Lemma rendering_order_witness :
  sections_of (format_markdown "v1.0.0" "2024-01-01"
                 (group_commits example_commits) None)
  = [ (breaking_title,
       ["- drop v1 api (c3c3c3c3)"; "- crash on null (b2b2b2b2)"]);
      (heading_of ("feat", ("Features", "✨")),
       ["- add login (a1a1a1a1)"; "- drop v1 api (c3c3c3c3)"]);
      (heading_of ("fix", ("Bug Fixes", "🐛")),
       ["- crash on null (b2b2b2b2)"]) ].
Proof.
  rewrite (proj1 (proj2 (proj2 rendering_order))
             "v1.0.0" "2024-01-01" (group_commits example_commits) None).
  - vm_compute. reflexivity.
  - reflexivity.
  - reflexivity.
  - exact I.
  - apply one_line_group_commits. repeat constructor.
Defined.

(** X18.  Read back section by section, the changelog rendered for a
    list of commits holds every commit under the title of its bucket:
    the section of a known type holds the items of exactly the input
    commits of that type, in input order; the section of the other
    changes holds the raw subjects of exactly the commits of no known
    type, in input order; the section of the breaking changes, which
    comes first, holds the items of exactly the breaking commits, in
    some order; a section without items is left out and there is no
    other section. *)
Theorem every_commit_listed (version date : string) (url : option string)
    (commits : list commit) :
  one_line version -> one_line date -> one_line_url url ->
  Forall one_line_source commits ->
  let classified := map classify commits in
  exists breaking,
    Permutation breaking (filter c_breaking classified)
    /\ sections_of (format_markdown version date (group_commits commits) url)
       = (titled breaking_title entry breaking
          ++ flat_map
               (fun e => titled (heading_of e) entry
                           (filter (in_bucket (fst e)) classified))
               COMMIT_TYPES
          ++ titled other_title raw_entry
               (filter (fun c => negb (known (c_type c))) classified))%list.
Proof.
  intros Hv Hd Hu Hc classified.
  exists (breaking_changes (group_commits commits)). split.
  - rewrite breaking_filter. apply perm_filter.
    rewrite group_commits_fold. apply (perm_fold commits []).
  - rewrite sections_of_format
      by (try assumption; now apply one_line_group_commits).
    unfold expected_sections. f_equal. f_equal.
    + apply flat_map_ext. intros e. now rewrite bucket_group_commits.
    + rewrite bucket_group_commits. f_equal. apply filter_ext, other_bucket.
Qed.

Lemma every_commit_listed_witness :
  exists breaking,
    Permutation breaking
      (filter c_breaking (map classify example_commits))
    /\ sections_of (format_markdown "v1.0.0" "2024-01-01"
                      (group_commits example_commits) None)
       = (titled breaking_title entry breaking
          ++ flat_map
               (fun e => titled (heading_of e) entry
                           (filter (in_bucket (fst e))
                                   (map classify example_commits)))
               COMMIT_TYPES
          ++ titled other_title raw_entry
               (filter (fun c => negb (known (c_type c)))
                       (map classify example_commits)))%list.
Proof.
  apply (every_commit_listed "v1.0.0" "2024-01-01" None example_commits).
  - reflexivity.
  - reflexivity.
  - exact I.
  - repeat constructor.
Defined.

End RenderingFacts.

(* ===================================================================== *)
(** ** git-changelog.py: writing into an existing changelog file *)
(* ===================================================================== *)

Module MergeFacts.
Import Text Properties TextFacts StringFacts Changelog.

Lemma find_none needle s : contains needle s = false -> find needle s = None.
Proof.
  induction s as [|c s IH]; simpl.
  - now intros [-> _]%orb_false_elim.
  - intros [-> H]%orb_false_elim. now rewrite (IH H).
Qed.

Lemma find_blank_line head rest :
  contains blank_line (head ++ String newline "") = false ->
  find blank_line (head ++ blank_line ++ rest) = Some (String.length head).
Proof.
  induction head as [|c h IH]; [reflexivity|].
  intros H. cbn [append contains] in H.
  apply orb_false_elim in H as [Hs H].
  cbn [append find String.length].
  assert (E : startswith (String c (h ++ blank_line ++ rest)) blank_line
              = false).
  { destruct h as [|d h'].
    - cbn in *. exact Hs.
    - cbn in *. exact Hs. }
  rewrite E, (IH H). reflexivity.
Qed.

Lemma take_app (a b : string) : take (String.length a) (a ++ b) = a.
Proof. induction a as [|c a IH]; simpl; [now destruct b|now rewrite IH]. Qed.

Lemma drop_app (a b : string) : drop (String.length a) (a ++ b) = b.
Proof. induction a as [|c a IH]; simpl; [now destruct b|exact IH]. Qed.

(** X19.  When the existing file starts with ["# "] and its first empty
    line ends a head, the new changelog is put right after that empty
    line, followed by a newline and the rest of the file: head, empty
    line and rest are kept as they are. *)
Theorem merge_changelog_inserts (head rest changelog : string) :
  startswith head "# " = true ->
  contains blank_line (head ++ String newline "") = false ->
  merge_changelog (head ++ blank_line ++ rest) changelog
  = head ++ blank_line ++ changelog ++ String newline "" ++ rest.
Proof.
  intros Hs Hc. unfold merge_changelog.
  assert (Hs' : startswith (head ++ blank_line ++ rest) "# " = true).
  { destruct head as [|a [|b h]]; cbn [startswith append] in Hs |- *;
      [discriminate Hs|now rewrite andb_false_r in Hs|exact Hs]. }
  rewrite Hs'. fold blank_line. rewrite (find_blank_line _ _ Hc).
  assert (Hlen : Nat.ltb 0 (String.length head) = true).
  { destruct head; [discriminate Hs|reflexivity]. }
  rewrite Hlen.
  replace (String.length head + 2)
    with (String.length (head ++ blank_line))
    by (rewrite length_app; reflexivity).
  rewrite <- (app_assoc head blank_line rest).
  rewrite take_app, drop_app. now rewrite !app_assoc.
Qed.

Lemma merge_changelog_inserts_witness :
  merge_changelog
    ("# Changelog" ++ blank_line ++ "## 1.0.0 (2024-01-01)")
    "## 1.1.0 (2024-02-01)"
  = "# Changelog" ++ blank_line ++ "## 1.1.0 (2024-02-01)"
    ++ String newline "" ++ "## 1.0.0 (2024-01-01)".
Proof.
  exact (merge_changelog_inserts "# Changelog" "## 1.0.0 (2024-01-01)"
           "## 1.1.0 (2024-02-01)" eq_refl eq_refl).
Defined.

Lemma read_text_no_return content :
  all (no carriage_return) (read_text content) = true
  /\ forall c, all (no carriage_return) (read_text (String c content)) = true.
Proof.
  induction content as [|d s [IH1 IH2]].
  - split; [reflexivity|]. intros c. cbn [read_text].
    destruct (Ascii.eqb c carriage_return) eqn:E; [reflexivity|].
    cbn [all]. unfold no at 1. now rewrite E.
  - split; [apply IH2|]. intros c.
    change (read_text (String c (String d s)))
      with (if Ascii.eqb c carriage_return
            then if Ascii.eqb d newline then String newline (read_text s)
                 else String newline (read_text (String d s))
            else String c (read_text (String d s))).
    destruct (Ascii.eqb c carriage_return) eqn:E.
    + destruct (Ascii.eqb d newline); cbn [all];
        [now rewrite IH1|now rewrite IH2].
    + cbn [all]. unfold no at 1. rewrite E. cbn [negb andb]. apply IH2.
Qed.

Lemma read_text_id content :
  all (no carriage_return) content = true -> read_text content = content.
Proof.
  induction content as [|c s IH]; [reflexivity|].
  cbn [all]. unfold no at 1. intros [Hc Hs]%andb_prop.
  apply negb_true_iff in Hc. cbn [read_text]. now rewrite Hc, IH.
Qed.

(** X20.  The text written into an existing changelog file holds the
    text read from it whole and in order: it is that text cut in two at
    some position with the new changelog and a newline in between, or
    that text followed by a newline and the new changelog.  The text
    read is the content of the file with no carriage return left
    ([read_text] reads [\r\n] and [\r] as [\n]); a file without carriage
    returns is read as it is. *)
Theorem merge_changelog_keeps_existing (content changelog : string) :
  let existing := read_text content in
  all (no carriage_return) existing = true
  /\ (all (no carriage_return) content = true -> existing = content)
  /\ exists before after,
       existing = before ++ after
       /\ (updated_text content changelog
           = before ++ changelog ++ String newline "" ++ after
           \/ (after = ""
               /\ updated_text content changelog
                  = existing ++ String newline "" ++ changelog)).
Proof.
  intros existing. split; [apply read_text_no_return|].
  split; [apply read_text_id|].
  unfold updated_text, merge_changelog. fold existing.
  destruct (startswith existing "# ").
  - destruct (find _ existing) as [n|].
    + destruct (Nat.ltb 0 n).
      * exists (take (n + 2) existing), (drop (n + 2) existing).
        split; [now rewrite take_drop|now left].
      * exists existing, "". split; [now rewrite app_nil_r|now right].
    + exists existing, "". split; [now rewrite app_nil_r|now right].
  - exists "", existing. split; [reflexivity|now left].
Qed.

Lemma merge_changelog_keeps_existing_witness :
  read_text "# Log" = "# Log".
Proof.
  exact (proj1 (proj2 (merge_changelog_keeps_existing "# Log" "")) eq_refl).
Defined.

End MergeFacts.
